(** * ElasticHashMap: a shallow embedding of [ElasticHashMap.hpp]

    The container is a fixed sequence of sub-arrays (regions) of slots.
    [size_t] values are modelled as [Z] with the 64-bit wrap-around written
    out wherever the source performs arithmetic that can wrap; vectors are
    lists read and written by index; a [Slot*] is a pair (region, index);
    an exception is a result carrying the map as it is when thrown. *)

From Stdlib Require Import ZArith Lia Bool String.
From stdpp Require Import base option list numbers.

Local Open Scope Z_scope.

(** ** Machine integers *)

Definition size_t_modulus : Z := 2 ^ 64.

(** Reduction of an arithmetic result to [size_t]. *)
Definition wrap (x : Z) : Z := x mod size_t_modulus.

(** ** Exceptions *)

(** Both failures are thrown as [std::runtime_error]; they differ by their
    message. *)
Inductive exn : Type :=
| runtime_error (what : string).


(** thrown at the end of [doInsert] *)
Definition CapacityExhausted : exn :=
  runtime_error "ElasticHashMap: table is too full or insertion failed!".

(** thrown by [operator[]] when the second lookup fails *)
Definition InvariantViolation : exn :=
  runtime_error "ElasticHashMap: insertion unexpectedly failed!".

(** Outcome of a member function: a returned value or a thrown exception,
    each with the object's state at that point. *)
Inductive result (S A : Type) : Type :=
| Ok (a : A) (s : S)
| Throw (e : exn) (s : S).
Arguments Ok {S A} a s.
Arguments Throw {S A} e s.

Definition state_after {S A} (r : result S A) : S :=
  match r with Ok _ s => s | Throw _ s => s end.

(** ** The constructor's sizing loop *)

(** [while (remaining > 0) {...}]: the list of [subCap] values passed to
    [emplace_back], in order.  [fuel] bounds the number of iterations;
    [None] means the bound was hit with [remaining > 0]. *)
Fixpoint allocate (fuel : nat) (remaining : Z) : option (list Z) :=
  match fuel with
  | O => if 0 <? remaining then None else Some []
  | S fuel' =>
      if 0 <? remaining then
        let subCap := Z.max 1 (remaining / 2) in
        let subCap :=
          if (subCap <? 4) && (remaining <? 4) then remaining else subCap in
        cons subCap <$> allocate fuel' (remaining - subCap)
      else Some []
  end.

(** Iteration bound used by the constructor: one more than the bit length
    of [remaining] (see [allocate_total]). *)
Definition loop_bound (remaining : Z) : nat :=
  S (Z.to_nat (Z.log2_up remaining)).

(** [if (totalCapacity < 8) totalCapacity = 8;] then the loop. *)
Definition region_sizes (totalCapacity : Z) : option (list Z) :=
  let totalCapacity := if totalCapacity <? 8 then 8 else totalCapacity in
  allocate (loop_bound totalCapacity) totalCapacity.

Definition sumZ (l : list Z) : Z := foldr Z.add 0 l.

(** [sorted_desc l]: every element is at least its successor. *)
Fixpoint sorted_desc (l : list Z) : bool :=
  match l with
  | x :: ((y :: _) as tl) => (y <=? x) && sorted_desc tl
  | _ => true
  end.

Section Container.

Variables K V : Type.
(** [operator==] on keys *)
Variable key_eqb : K -> K -> bool.
(** the [Hasher] functor; its result is converted to [size_t] *)
Variable m_hasher : K -> Z.
(** a default-constructed key and value ([K()], [V{}]) *)
Variable K_default : K.
Variable V_default : V.

(** *** Data *)

Record Slot : Type := mkSlot {
  occupied : bool;
  key : K;
  value : V
}.

(** [Slot()] *)
Definition emptySlot : Slot := mkSlot false K_default V_default.

Record Subarray : Type := mkSubarray {
  slots : list Slot;
  size : Z;
  capacity : Z
}.

(** [Subarray(cap)]: [size(0), capacity(cap)], [slots.resize(cap)] *)
Definition newSubarray (cap : Z) : Subarray :=
  mkSubarray (replicate (Z.to_nat cap) emptySlot) 0 cap.

Record ElasticHashMap : Type := mkMap {
  subarrays : list Subarray
}.

(** The constructor. *)
Definition ElasticHashMap_ctor (totalCapacity : Z) : option ElasticHashMap :=
  (fun caps => mkMap (newSubarray <$> caps)) <$> region_sizes totalCapacity.

Definition capacities (m : ElasticHashMap) : list Z :=
  capacity <$> subarrays m.

(** *** Slot access *)

(** [sub.slots[idx]] read.  Inside the vector this is the stored slot;
    outside it (undefined behaviour in the source, excluded by [wf_sub])
    the model reads an empty slot. *)
Definition slot_at (sub : Subarray) (idx : Z) : Slot :=
  default emptySlot (slots sub !! Z.to_nat idx).

(** [sub.slots[idx].value = val] *)
Definition write_value (sub : Subarray) (idx : Z) (val : V) : Subarray :=
  mkSubarray
    (<[Z.to_nat idx := mkSlot (occupied (slot_at sub idx))
                              (key (slot_at sub idx)) val]> (slots sub))
    (size sub) (capacity sub).

(** [occupied = true; key = k; value = val; sub.size++] *)
Definition place (sub : Subarray) (idx : Z) (k : K) (val : V) : Subarray :=
  mkSubarray (<[Z.to_nat idx := mkSlot true k val]> (slots sub))
             (wrap (size sub + 1)) (capacity sub).

(** *** Probing *)

(** [size_t hashVal = m_hasher(key)] *)
Definition hashOf (k : K) : Z := wrap (m_hasher k).

(** [std::min<size_t>(16, subcap)] *)
Definition maxProbesOf (subcap : Z) : Z := Z.min 16 subcap.

(** [(hashVal + probe) % subcap], the sum taken in [size_t] *)
Definition probe_index (hashVal probe subcap : Z) : Z :=
  wrap (hashVal + probe) mod subcap.

(** The canonical probe sequence of hash [h] in a region of capacity [c]. *)
Definition probe_sequence (h c : Z) : list Z :=
  (fun probe => probe_index h probe c) <$> seqZ 0 (maxProbesOf c).

(** An inner loop yields what it returns and the indices it read, in order. *)
Definition logged {A B} (idx : B) (r : A * list B) : A * list B :=
  (r.1, idx :: r.2).

(** Inner loop of [findSlot]: [n] iterations left, starting at [probe].
    [None] is leaving the loop ([break] or budget spent). *)
Fixpoint findSlot_probe (sub : Subarray) (k : K) (hashVal : Z)
    (n : nat) (probe : Z) : option Z * list Z :=
  match n with
  | O => (None, [])
  | S n' =>
      let idx := probe_index hashVal probe (capacity sub) in
      if negb (occupied (slot_at sub idx)) then (None, [idx])
      else if occupied (slot_at sub idx) && key_eqb (key (slot_at sub idx)) k
           then (Some idx, [idx])
           else logged idx (findSlot_probe sub k hashVal n' (probe + 1))
  end.

Definition findSlot_in (sub : Subarray) (k : K) : option Z * list Z :=
  findSlot_probe sub k (hashOf k)
                 (Z.to_nat (maxProbesOf (capacity sub))) 0.

(** A place found in the rest of the regions, seen from one region
    earlier. *)
Definition next_region (p : nat * Z) : nat * Z := (S p.1, p.2).

(** Outer loop of [findSlot]; the returned [Slot*] is (region, index). *)
Fixpoint findSlot_subs (subs : list Subarray) (k : K) : option (nat * Z) :=
  match subs with
  | [] => None
  | sub :: rest =>
      match (findSlot_in sub k).1 with
      | Some idx => Some (O, idx)
      | None => next_region <$> findSlot_subs rest k
      end
  end.

Definition findSlot (m : ElasticHashMap) (k : K) : option (nat * Z) :=
  findSlot_subs (subarrays m) k.

(** [count]: [findSlot(key) != nullptr] *)
Definition count (m : ElasticHashMap) (k : K) : bool :=
  match findSlot m k with Some _ => true | None => false end.

(** Inner loop of [tryUpdate]: [Some sub'] is [return true] after the
    write. *)
Fixpoint tryUpdate_probe (sub : Subarray) (k : K) (val : V) (hashVal : Z)
    (n : nat) (probe : Z) : option Subarray * list Z :=
  match n with
  | O => (None, [])
  | S n' =>
      let idx := probe_index hashVal probe (capacity sub) in
      if occupied (slot_at sub idx) then
        if key_eqb (key (slot_at sub idx)) k
        then (Some (write_value sub idx val), [idx])
        else logged idx (tryUpdate_probe sub k val hashVal n' (probe + 1))
      else (None, [idx])
  end.

Definition tryUpdate_in (sub : Subarray) (k : K) (val : V)
    : option Subarray * list Z :=
  tryUpdate_probe sub k val (hashOf k)
                  (Z.to_nat (maxProbesOf (capacity sub))) 0.

(** Outer loop of [tryUpdate]: the returned flag and the regions after. *)
Fixpoint tryUpdate_subs (subs : list Subarray) (k : K) (val : V)
    : bool * list Subarray :=
  match subs with
  | [] => (false, [])
  | sub :: rest =>
      match (tryUpdate_in sub k val).1 with
      | Some sub' => (true, sub' :: rest)
      | None =>
          let r := tryUpdate_subs rest k val in (r.1, sub :: r.2)
      end
  end.

Definition tryUpdate (m : ElasticHashMap) (k : K) (val : V)
    : bool * ElasticHashMap :=
  let r := tryUpdate_subs (subarrays m) k val in (r.1, mkMap r.2).

(** Inner loop of [doInsert]: [Some sub'] is [return] after a placement or
    after overwriting a duplicate. *)
Fixpoint doInsert_probe (sub : Subarray) (k : K) (val : V) (hashVal : Z)
    (n : nat) (probe : Z) : option Subarray * list Z :=
  match n with
  | O => (None, [])
  | S n' =>
      let idx := probe_index hashVal probe (capacity sub) in
      if negb (occupied (slot_at sub idx))
      then (Some (place sub idx k val), [idx])
      else if key_eqb (key (slot_at sub idx)) k
           then (Some (write_value sub idx val), [idx])
           else logged idx (doInsert_probe sub k val hashVal n' (probe + 1))
  end.

Definition doInsert_in (sub : Subarray) (k : K) (val : V)
    : option Subarray * list Z :=
  doInsert_probe sub k val (hashOf k)
                 (Z.to_nat (maxProbesOf (capacity sub))) 0.

(** [sub.size * 10 < sub.capacity * 9], both products in [size_t] *)
Definition eligible (sub : Subarray) : bool :=
  wrap (size sub * 10) <? wrap (capacity sub * 9).

(** What the outer loop of [doInsert] leaves: whether it returned, the
    regions afterwards, and every (region, index) it read. *)
Record InsertWalk : Type := mkWalk {
  placed : bool;
  after : list Subarray;
  probed : list (nat * Z)
}.

Fixpoint doInsert_subs (subs : list Subarray) (k : K) (val : V)
    : InsertWalk :=
  match subs with
  | [] => mkWalk false [] []
  | sub :: rest =>
      if eligible sub then
        let r := doInsert_in sub k val in
        match r.1 with
        | Some sub' => mkWalk true (sub' :: rest) (pair O <$> r.2)
        | None =>
            let w := doInsert_subs rest k val in
            mkWalk (placed w) (sub :: after w)
                   ((pair O <$> r.2) ++ (next_region <$> probed w))
        end
      else
        let w := doInsert_subs rest k val in
        mkWalk (placed w) (sub :: after w) (next_region <$> probed w)
  end.

Definition doInsert (m : ElasticHashMap) (k : K) (val : V)
    : result ElasticHashMap unit :=
  let w := doInsert_subs (subarrays m) k val in
  if placed w then Ok tt (mkMap (after w))
  else Throw CapacityExhausted (mkMap (after w)).

(** The (region, index) pairs [doInsert] reads, in order. *)
Definition doInsert_probed (m : ElasticHashMap) (k : K) (val : V)
    : list (nat * Z) :=
  probed (doInsert_subs (subarrays m) k val).

Definition insertOrUpdate (m : ElasticHashMap) (k : K) (val : V)
    : result ElasticHashMap unit :=
  let r := tryUpdate m k val in
  if r.1 then Ok tt r.2 else doInsert r.2 k val.

(** [operator[]]: the returned [V&] is the value field of the slot at the
    returned place. *)
Definition operator_index (m : ElasticHashMap) (k : K)
    : result ElasticHashMap (nat * Z) :=
  match findSlot m k with
  | Some p => Ok p m
  | None =>
      match insertOrUpdate m k V_default with
      | Throw e m' => Throw e m'
      | Ok _ m' =>
          match findSlot m' k with
          | Some p => Ok p m'
          | None => Throw InvariantViolation m'
          end
      end
  end.

(** Dereferencing a [Slot*]. *)
Definition slot_of (m : ElasticHashMap) (p : nat * Z) : Slot :=
  match subarrays m !! p.1 with
  | Some sub => slot_at sub p.2
  | None => emptySlot
  end.

(** Assignment through the reference returned by [operator[]]. *)
Definition store_value (m : ElasticHashMap) (p : nat * Z) (val : V)
    : ElasticHashMap :=
  mkMap (alter (fun sub => write_value sub p.2 val) p.1 (subarrays m)).

(** The value a lookup of [k] yields. *)
Definition lookup_value (m : ElasticHashMap) (k : K) : option V :=
  (fun p => value (slot_of m p)) <$> findSlot m k.

(** *** Client operations *)

Inductive Op : Type :=
| OpCount (k : K)
| OpPut (k : K) (val : V)
| OpIndex (k : K)
| OpIndexAssign (k : K) (val : V).

(** One call of the public interface; [OpIndexAssign k v] is [m[k] = v]. *)
Definition exec (op : Op) (m : ElasticHashMap) : result ElasticHashMap unit :=
  match op with
  | OpCount k => Ok tt m
  | OpPut k val => insertOrUpdate m k val
  | OpIndex k =>
      match operator_index m k with
      | Ok _ m' => Ok tt m'
      | Throw e m' => Throw e m'
      end
  | OpIndexAssign k val =>
      match operator_index m k with
      | Ok p m' => Ok tt (store_value m' p val)
      | Throw e m' => Throw e m'
      end
  end.

(** A run in which every call returns normally. *)
Fixpoint run_ok (ops : list Op) (m : ElasticHashMap) : option ElasticHashMap :=
  match ops with
  | [] => Some m
  | op :: rest =>
      match exec op m with
      | Ok _ m' => run_ok rest m'
      | Throw _ _ => None
      end
  end.

(** A run whose caller catches every exception and carries on. *)
Fixpoint run_catch (ops : list Op) (m : ElasticHashMap) : ElasticHashMap :=
  match ops with
  | [] => m
  | op :: rest => run_catch rest (state_after (exec op m))
  end.

(** The value most recently written for [k] by [ops], [v0] if none. *)
Fixpoint last_written (k : K) (v0 : V) (ops : list Op) : V :=
  match ops with
  | [] => v0
  | OpPut k' val :: rest | OpIndexAssign k' val :: rest =>
      last_written k (if key_eqb k' k then val else v0) rest
  | _ :: rest => last_written k v0 rest
  end.

(** *** Invariants *)

Fixpoint occupiedCount (l : list Slot) : Z :=
  match l with
  | [] => 0
  | s :: rest => (if occupied s then 1 else 0) + occupiedCount rest
  end.

(** A region as [Subarray(cap)] and the member functions keep it. *)
Record wf_sub (sub : Subarray) : Prop := mk_wf_sub {
  wf_length : Z.of_nat (length (slots sub)) = capacity sub;
  wf_size : size sub = occupiedCount (slots sub);
  wf_capacity : 0 < capacity sub < size_t_modulus
}.

Definition wf_map (m : ElasticHashMap) : Prop :=
  Forall wf_sub (subarrays m).

(** Key [k] is stored in slot [idx] of region [i]. *)
Definition stored (m : ElasticHashMap) (i : nat) (idx : Z) (k : K) : Prop :=
  exists sub, subarrays m !! i = Some sub /\
              0 <= idx < capacity sub /\
              occupied (slot_at sub idx) = true /\
              key (slot_at sub idx) = k.

(** Two regions of equal capacity whose slots agree on occupancy and keys
    (values may differ). *)
Definition same_keys (sub sub' : Subarray) : Prop :=
  capacity sub = capacity sub' /\
  forall j, 0 <= j < capacity sub ->
    occupied (slot_at sub' j) = occupied (slot_at sub j) /\
    key (slot_at sub' j) = key (slot_at sub j).

(** A region keeps its capacity and does not lose entries. *)
Definition region_grows (sub sub' : Subarray) : Prop :=
  capacity sub' = capacity sub /\ size sub <= size sub'.

(** [m'] is [m] with region [i], formerly [sub], replaced by [sub']. *)
Definition updates_region (m m' : ElasticHashMap) (i : nat)
    (sub sub' : Subarray) : Prop :=
  subarrays m !! i = Some sub /\ subarrays m' = <[i := sub']> (subarrays m).

(** The state reached from [m]: well formed, every region as large as
    before or larger, capacities unchanged. *)
Definition map_grows (m m' : ElasticHashMap) : Prop :=
  wf_map m' /\ Forall2 region_grows (subarrays m) (subarrays m').

(** [size] counts the occupied slots and stays within [capacity]. *)
Definition size_accurate (sub : Subarray) : Prop :=
  size sub = occupiedCount (slots sub) /\ 0 <= size sub <= capacity sub.

(** The fill fraction of [sub] is strictly below 90%. *)
Definition below_threshold (sub : Subarray) : Prop :=
  size sub * 10 < capacity sub * 9.

(** Every stored key is the one [findSlot] returns for it. *)
Definition findable (m : ElasticHashMap) : Prop :=
  forall i idx k, stored m i idx k -> findSlot m k = Some (i, idx).

(** A lookup of [k] in [m] succeeds and reads [w]. *)
Definition holds (m : ElasticHashMap) (k : K) (w : V) : Prop :=
  exists p, findSlot m k = Some p /\ value (slot_of m p) = w.

(** The two invariants every reachable state satisfies. *)
Definition good (m : ElasticHashMap) : Prop := wf_map m /\ findable m.

(** The number of entries the regions record in total. *)
Definition total_size (m : ElasticHashMap) : Z :=
  sumZ (size <$> subarrays m).

(** Every slot of the probe sequence of [k] in [sub] is occupied by a key
    that does not compare equal to [k]. *)
Definition probe_blocked (sub : Subarray) (k : K) : bool :=
  forallb (fun idx => occupied (slot_at sub idx)
                      && negb (key_eqb (key (slot_at sub idx)) k))
          (probe_sequence (hashOf k) (capacity sub)).

(** [doInsert] passes over [sub] for [k]: the region fails the admission
    test or its probe sequence is blocked. *)
Definition rejects (sub : Subarray) (k : K) : bool :=
  negb (eligible sub) || probe_blocked sub k.

(** The key a call is about. *)
Definition op_key (op : Op) : K :=
  match op with
  | OpCount k | OpPut k _ | OpIndex k | OpIndexAssign k _ => k
  end.




(** ** The constructor *)

Lemma allocate_enough (f : nat) :
  forall r, r <= 2 ^ Z.of_nat f ->
    exists l, allocate (S f) r = Some l /\ sumZ l = Z.max 0 r /\
              Forall (fun c => 0 < c <= r) l.
Proof.
  induction f as [|f IH]; intros r Hr.
  - cbn [allocate]. destruct (0 <? r) eqn:Hpos.
    + apply Z.ltb_lt in Hpos. change (2 ^ Z.of_nat 0) with 1 in Hr.
      assert (r = 1) as -> by lia. exists [1]. cbn. repeat split; try lia.
      repeat constructor; lia.
    + apply Z.ltb_ge in Hpos. exists []. cbn. repeat split; [lia | constructor].
  - remember (S f) as f' eqn:Hf'. cbn [allocate].
    destruct (0 <? r) eqn:Hpos.
    2:{ apply Z.ltb_ge in Hpos. exists []. cbn.
        repeat split; [lia | constructor]. }
    apply Z.ltb_lt in Hpos.
    set (c := if (Z.max 1 (r / 2) <? 4) && (r <? 4) then r
              else Z.max 1 (r / 2)).
    assert (Hpow : 2 ^ Z.of_nat f' = 2 * 2 ^ Z.of_nat f).
    { subst f'. rewrite Nat2Z.inj_succ, Z.pow_succ_r; lia. }
    assert (Hc : 0 < c <= r /\ r - c <= 2 ^ Z.of_nat f).
    { subst c. assert (0 < 2 ^ Z.of_nat f) by (apply Z.pow_pos_nonneg; lia).
      assert (Hdiv : 2 * (r / 2) <= r < 2 * (r / 2) + 2).
      { pose proof (Z.div_mod r 2 ltac:(lia)).
        pose proof (Z.mod_pos_bound r 2 ltac:(lia)). lia. }
      destruct (Z.max 1 (r / 2) <? 4) eqn:E1; destruct (r <? 4) eqn:E2;
        cbn [andb];
        rewrite ?Z.ltb_lt, ?Z.ltb_ge in E1, E2; lia. }
    destruct Hc as [Hc1 Hc2].
    subst f'. destruct (IH (r - c) Hc2) as (l & Hl & Hsum & Hall).
    rewrite Hl. exists (c :: l). unfold sumZ in *. cbn.
    repeat split; try lia.
    constructor; [lia |].
    eapply Forall_impl; [| exact Hall]. cbn. intros; lia.
Qed.

Lemma allocate_total (r : Z) :
  0 < r ->
  exists l, allocate (loop_bound r) r = Some l /\ sumZ l = r /\
            Forall (fun c => 0 < c <= r) l.
Proof.
  intros Hr. unfold loop_bound.
  destruct (allocate_enough (Z.to_nat (Z.log2_up r)) r) as (l & Hl & Hs & Ha).
  - rewrite Z2Nat.id by apply Z.log2_up_nonneg.
    destruct (Z.eq_dec r 1) as [->|Hne]; [cbn; lia |].
    destruct (Z.log2_up_spec r) as [_ H]; [lia | exact H].
  - exists l. repeat split; [exact Hl | lia | exact Ha].
Qed.

Lemma region_sizes_total (n : Z) :
  exists l, region_sizes n = Some l /\ sumZ l = Z.max n 8 /\
            Forall (fun c => 0 < c <= Z.max n 8) l.
Proof.
  unfold region_sizes.
  destruct (n <? 8) eqn:E; rewrite ?Z.ltb_lt, ?Z.ltb_ge in E.
  - destruct (allocate_total 8 ltac:(lia)) as (l & Hl & Hs & Ha).
    exists l. replace (Z.max n 8) with 8 by lia. auto.
  - destruct (allocate_total n ltac:(lia)) as (l & Hl & Hs & Ha).
    exists l. replace (Z.max n 8) with n by lia. auto.
Qed.

Lemma capacities_new (caps : list Z) :
  capacities (mkMap (newSubarray <$> caps)) = caps.
Proof.
  unfold capacities. cbn. rewrite <- list_fmap_compose.
  induction caps as [|c caps IH]; cbn; [reflexivity | now f_equal].
Qed.

(** C1. The constructor returns a map for every requested capacity [n], and
    the capacities of the regions it creates add up to [max n 8]. *)
Theorem ctor_capacity_conservation (n : Z) :
  exists m, ElasticHashMap_ctor n = Some m /\
            sumZ (capacities m) = Z.max n 8.
Proof.
  destruct (region_sizes_total n) as (l & Hl & Hs & _).
  exists (mkMap (newSubarray <$> l)). unfold ElasticHashMap_ctor.
  rewrite Hl. split; [reflexivity |]. now rewrite capacities_new.
Qed.

(** C2 (at the input that breaks the order). For a requested capacity of 9
    the constructor creates regions of capacities 4, 2 and 3: the final
    region, which takes the remainder, is larger than the one before it. *)
Theorem ctor_capacities_9 :
  capacities <$> ElasticHashMap_ctor 9 = Some [4; 2; 3] /\
  sorted_desc [4; 2; 3] = false.
Proof. split; reflexivity. Qed.

(** ** Slots and indices *)

Lemma probe_index_range (h p c : Z) :
  0 < c -> 0 <= probe_index h p c < c.
Proof. intros Hc. unfold probe_index. apply Z.mod_pos_bound. exact Hc. Qed.

Lemma in_range_lookup (sub : Subarray) (idx : Z) :
  Z.of_nat (length (slots sub)) = capacity sub ->
  0 <= idx < capacity sub ->
  slots sub !! Z.to_nat idx = Some (slot_at sub idx).
Proof.
  intros Hlen Hidx. unfold slot_at.
  destruct (slots sub !! Z.to_nat idx) as [s|] eqn:E; [reflexivity |].
  apply lookup_ge_None in E. lia.
Qed.

Lemma slot_at_place_same (sub : Subarray) (idx : Z) (k : K) (v : V) :
  Z.of_nat (length (slots sub)) = capacity sub ->
  0 <= idx < capacity sub ->
  slot_at (place sub idx k v) idx = mkSlot true k v.
Proof.
  intros Hlen Hidx. unfold slot_at, place. cbn.
  rewrite list_lookup_insert_eq by lia. reflexivity.
Qed.

Lemma slot_at_place_other (sub : Subarray) (idx j : Z) (k : K) (v : V) :
  0 <= idx -> 0 <= j -> idx <> j ->
  slot_at (place sub idx k v) j = slot_at sub j.
Proof.
  intros Hi Hj Hne. unfold slot_at, place. cbn.
  rewrite list_lookup_insert_ne by lia. reflexivity.
Qed.

Lemma slot_at_write_value (sub : Subarray) (idx j : Z) (v : V) :
  0 <= idx -> 0 <= j ->
  slot_at (write_value sub idx v) j =
    if decide (idx = j /\ (Z.to_nat idx < length (slots sub))%nat)
    then mkSlot (occupied (slot_at sub idx)) (key (slot_at sub idx)) v
    else slot_at sub j.
Proof.
  intros Hi Hj. unfold write_value. unfold slot_at at 1. cbn.
  destruct (decide (idx = j /\ (Z.to_nat idx < length (slots sub))%nat))
    as [[-> Hlt]|Hn].
  - rewrite list_lookup_insert_eq by exact Hlt. reflexivity.
  - destruct (decide (idx = j)) as [->|Hne].
    + rewrite list_insert_ge by lia. reflexivity.
    + rewrite list_lookup_insert_ne by lia. reflexivity.
Qed.

(** Overwriting a value changes neither occupancy nor keys. *)
Lemma write_value_same_keys (sub : Subarray) (idx : Z) (v : V) :
  0 <= idx -> same_keys sub (write_value sub idx v).
Proof.
  intros Hi. split; [reflexivity |]. intros j Hj.
  rewrite slot_at_write_value by lia.
  destruct (decide _) as [[-> _]|_]; cbn; auto.
Qed.

Lemma same_keys_refl (sub : Subarray) : same_keys sub sub.
Proof. split; auto. Qed.

(** ** The three inner loops *)

(** A lookup only depends on occupancy and keys. *)
Lemma findSlot_probe_same_keys (sub sub' : Subarray) (k : K) (h : Z) :
  same_keys sub sub' -> 0 < capacity sub ->
  forall n p, findSlot_probe sub' k h n p = findSlot_probe sub k h n p.
Proof.
  intros [Hc Hs] Hpos n. induction n as [|n IH]; intros p; cbn [findSlot_probe];
    [reflexivity |].
  rewrite <- Hc.
  destruct (Hs (probe_index h p (capacity sub))) as [-> ->].
  { apply probe_index_range, Hpos. }
  rewrite IH. reflexivity.
Qed.

(** A hit is an occupied slot of the probe sequence holding a key equal to
    the one looked up. *)
Lemma findSlot_probe_sound (sub : Subarray) (k : K) (h : Z) :
  forall n p idx,
    (findSlot_probe sub k h n p).1 = Some idx ->
    occupied (slot_at sub idx) = true /\
    key_eqb (key (slot_at sub idx)) k = true /\
    exists q, idx = probe_index h q (capacity sub).
Proof.
  induction n as [|n IH]; intros p idx; cbn [findSlot_probe]; [discriminate |].
  destruct (occupied (slot_at sub _)) eqn:Eo; cbn [negb andb]; [|discriminate].
  destruct (key_eqb _ k) eqn:Ek; cbn.
  - intros [= <-]. eauto.
  - apply IH.
Qed.

(** [tryUpdate] walks a region exactly as [findSlot] does and writes where
    [findSlot] stops. *)
Lemma tryUpdate_probe_find (sub : Subarray) (k : K) (v : V) (h : Z) :
  forall n p,
    tryUpdate_probe sub k v h n p =
      ((fun idx => write_value sub idx v) <$> (findSlot_probe sub k h n p).1,
       (findSlot_probe sub k h n p).2).
Proof.
  induction n as [|n IH]; intros p; cbn [tryUpdate_probe findSlot_probe];
    [reflexivity |].
  destruct (occupied (slot_at sub _)); cbn [negb andb]; [|reflexivity].
  destruct (key_eqb _ k); [reflexivity |].
  rewrite IH. reflexivity.
Qed.

Lemma prefix_of_probes (h c : Z) (n : nat) (p : Z) (l : list Z) :
  l `prefix_of` ((fun q => probe_index h q c) <$> seqZ (p + 1) (Z.of_nat n)) ->
  probe_index h p c :: l
    `prefix_of` ((fun q => probe_index h q c) <$> seqZ p (Z.of_nat (S n))).
Proof.
  intros Hl. rewrite (seqZ_cons p) by lia. cbn [fmap list_fmap].
  replace (Z.pred (Z.of_nat (S n))) with (Z.of_nat n) by lia.
  replace (Z.succ p) with (p + 1) by lia. apply prefix_cons, Hl.
Qed.

Lemma findSlot_probe_trace (sub : Subarray) (k : K) (h : Z) :
  forall n p,
    (findSlot_probe sub k h n p).2
      `prefix_of` ((fun q => probe_index h q (capacity sub))
                     <$> seqZ p (Z.of_nat n)).
Proof.
  induction n as [|n IH]; intros p; cbn [findSlot_probe];
    [apply prefix_nil |].
  destruct (negb _); [apply prefix_of_probes, prefix_nil |].
  destruct (_ && _); [apply prefix_of_probes, prefix_nil |].
  apply prefix_of_probes, IH.
Qed.

Lemma doInsert_probe_trace (sub : Subarray) (k : K) (v : V) (h : Z) :
  forall n p,
    (doInsert_probe sub k v h n p).2
      `prefix_of` ((fun q => probe_index h q (capacity sub))
                     <$> seqZ p (Z.of_nat n)).
Proof.
  induction n as [|n IH]; intros p; cbn [doInsert_probe];
    [apply prefix_nil |].
  destruct (negb _); [apply prefix_of_probes, prefix_nil |].
  destruct (key_eqb _ _); [apply prefix_of_probes, prefix_nil |].
  apply prefix_of_probes, IH.
Qed.

Lemma seqZ_budget (c : Z) :
  seqZ 0 (Z.of_nat (Z.to_nat (maxProbesOf c))) = seqZ 0 (maxProbesOf c).
Proof. unfold seqZ. rewrite Nat2Z.id. reflexivity. Qed.


Lemma tryUpdate_in_find (sub : Subarray) (k : K) (v : V) :
  tryUpdate_in sub k v =
    ((fun idx => write_value sub idx v) <$> (findSlot_in sub k).1,
     (findSlot_in sub k).2).
Proof. apply tryUpdate_probe_find. Qed.

Lemma findSlot_in_sound (sub : Subarray) (k : K) (idx : Z) :
  0 < capacity sub ->
  (findSlot_in sub k).1 = Some idx ->
  0 <= idx < capacity sub /\
  occupied (slot_at sub idx) = true /\
  key_eqb (key (slot_at sub idx)) k = true.
Proof.
  intros Hc H. apply findSlot_probe_sound in H as (Ho & Hk & q & ->).
  auto using probe_index_range.
Qed.

(** What [doInsert] can do to a region: claim an empty slot of the probe
    sequence or overwrite the value of an occupied one. *)
Lemma doInsert_probe_cases (sub : Subarray) (k : K) (v : V) (h : Z) :
  forall n p sub',
    (doInsert_probe sub k v h n p).1 = Some sub' ->
    exists idx,
      (exists q, idx = probe_index h q (capacity sub)) /\
      ((occupied (slot_at sub idx) = false /\ sub' = place sub idx k v) \/
       (occupied (slot_at sub idx) = true /\ sub' = write_value sub idx v)).
Proof.
  induction n as [|n IH]; intros p sub'; cbn [doInsert_probe]; [discriminate |].
  destruct (occupied (slot_at sub _)) eqn:Eo; cbn [negb].
  - destruct (key_eqb _ k) eqn:Ek; cbn.
    + intros [= <-]. exists (probe_index h p (capacity sub)).
      split; [eauto | right; auto].
    + apply IH.
  - cbn. intros [= <-]. exists (probe_index h p (capacity sub)).
    split; [eauto | left; auto].
Qed.

(** ** Occupancy counts *)

Lemma occupiedCount_bounds (l : list Slot) :
  0 <= occupiedCount l <= Z.of_nat (length l).
Proof.
  induction l as [|s l IH]; cbn [occupiedCount length]; [lia |].
  destruct (occupied s); lia.
Qed.

Lemma occupiedCount_insert (l : list Slot) :
  forall i s s',
    l !! i = Some s ->
    occupiedCount (<[i := s']> l) =
      occupiedCount l - (if occupied s then 1 else 0)
                      + (if occupied s' then 1 else 0).
Proof.
  induction l as [|x l IH]; intros i s s' Hi; [discriminate |].
  destruct i as [|i]; cbn in Hi.
  - injection Hi as ->. cbn. lia.
  - specialize (IH i s s' Hi). simpl. lia.
Qed.

Lemma wf_sub_size_le (sub : Subarray) :
  wf_sub sub -> 0 <= size sub <= capacity sub.
Proof.
  intros [Hl Hs Hc]. rewrite Hs, <- Hl. apply occupiedCount_bounds.
Qed.

Lemma wf_sub_write_value (sub : Subarray) (idx : Z) (v : V) :
  wf_sub sub -> 0 <= idx < capacity sub -> wf_sub (write_value sub idx v).
Proof.
  intros [Hl Hs Hc] Hidx. split; cbn.
  - rewrite length_insert. exact Hl.
  - rewrite (occupiedCount_insert _ _ (slot_at sub idx))
      by (apply in_range_lookup; assumption).
    cbn. rewrite Hs. lia.
  - exact Hc.
Qed.

Lemma wf_sub_place (sub : Subarray) (idx : Z) (k : K) (v : V) :
  wf_sub sub -> 0 <= idx < capacity sub ->
  occupied (slot_at sub idx) = false ->
  wf_sub (place sub idx k v) /\ size (place sub idx k v) = size sub + 1.
Proof.
  intros [Hl Hs Hc] Hidx Hocc.
  assert (Hcount : occupiedCount (<[Z.to_nat idx := mkSlot true k v]> (slots sub))
                   = size sub + 1).
  { rewrite (occupiedCount_insert _ _ (slot_at sub idx))
      by (apply in_range_lookup; assumption).
    rewrite Hocc. cbn. lia. }
  assert (Hle : size sub + 1 <= capacity sub).
  { rewrite <- Hcount, <- Hl.
    rewrite <- (length_insert (slots sub) (Z.to_nat idx) (mkSlot true k v)).
    apply occupiedCount_bounds. }
  assert (Hw : wrap (size sub + 1) = size sub + 1).
  { unfold wrap. apply Z.mod_small.
    pose proof (occupiedCount_bounds (slots sub)). lia. }
  split; [split |]; cbn.
  - rewrite length_insert. exact Hl.
  - rewrite Hw, Hcount. reflexivity.
  - exact Hc.
  - exact Hw.
Qed.

(** ** The outer loops *)

Lemma findSlot_subs_None (subs : list Subarray) (k : K) :
  findSlot_subs subs k = None <->
  Forall (fun sub => (findSlot_in sub k).1 = None) subs.
Proof.
  induction subs as [|sub rest IH]; cbn [findSlot_subs].
  - split; [constructor | reflexivity].
  - destruct ((findSlot_in sub k).1) eqn:E.
    + split; [discriminate |]. intros H. inversion H; congruence.
    + rewrite fmap_None, IH. split.
      * intros H. constructor; assumption.
      * intros H. inversion H; assumption.
Qed.

Lemma findSlot_subs_Some (subs : list Subarray) (k : K) :
  forall i idx,
    findSlot_subs subs k = Some (i, idx) <->
    exists sub, subs !! i = Some sub /\
                (findSlot_in sub k).1 = Some idx /\
                Forall (fun s => (findSlot_in s k).1 = None) (take i subs).
Proof.
  induction subs as [|sub rest IH]; intros i idx; cbn [findSlot_subs].
  - split; [discriminate | intros (s & H & _); discriminate].
  - destruct ((findSlot_in sub k).1) as [j|] eqn:E.
    + split.
      * intros [= <- <-]. exists sub. cbn. repeat split; [exact E | constructor].
      * intros (s & Hs & Hf & Hall). destruct i as [|i]; cbn in *.
        -- congruence.
        -- inversion Hall; congruence.
    + destruct i as [|i].
      * split.
        -- destruct (findSlot_subs rest k) as [[? ?]|]; discriminate.
        -- intros (s & Hs & Hf & _). cbn in Hs. congruence.
      * specialize (IH i idx). split.
        -- intros H. destruct (findSlot_subs rest k) as [[i' idx']|] eqn:Er;
             [|discriminate].
           cbn in H. injection H as <- <-.
           destruct IH as [(s & Hs & Hf & Hall) _]; [reflexivity |].
           exists s. cbn. repeat split; [exact Hs | exact Hf |].
           constructor; assumption.
        -- intros (s & Hs & Hf & Hall). cbn in Hs, Hall.
           rewrite (proj2 IH); [reflexivity |].
           exists s. repeat split; [exact Hs | exact Hf |].
           inversion Hall; assumption.
Qed.

(** [findSlot] only depends on what each region's walk yields. *)
Lemma findSlot_subs_ext (subs subs' : list Subarray) (k : K) :
  Forall2 (fun s s' => (findSlot_in s' k).1 = (findSlot_in s k).1) subs subs' ->
  findSlot_subs subs' k = findSlot_subs subs k.
Proof.
  induction 1 as [|s s' subs subs' Hs _ IH]; cbn [findSlot_subs];
    [reflexivity |].
  rewrite Hs, IH. reflexivity.
Qed.

(** [tryUpdate] returns whether [findSlot] finds the key, and writes the
    value through the pointer [findSlot] would return. *)
Lemma tryUpdate_subs_spec (subs : list Subarray) (k : K) (v : V) :
  tryUpdate_subs subs k v =
    match findSlot_subs subs k with
    | Some p => (true, alter (fun sub => write_value sub p.2 v) p.1 subs)
    | None => (false, subs)
    end.
Proof.
  induction subs as [|sub rest IH]; cbn [tryUpdate_subs findSlot_subs];
    [reflexivity |].
  rewrite tryUpdate_in_find. cbn [fst].
  destruct ((findSlot_in sub k).1) as [idx|]; cbn; [reflexivity |].
  rewrite IH. destruct (findSlot_subs rest k) as [[i idx]|]; reflexivity.
Qed.

Lemma mkMap_eta (m : ElasticHashMap) : mkMap (subarrays m) = m.
Proof. destruct m; reflexivity. Qed.

Lemma tryUpdate_spec (m : ElasticHashMap) (k : K) (v : V) :
  tryUpdate m k v =
    match findSlot m k with
    | Some p => (true, store_value m p v)
    | None => (false, m)
    end.
Proof.
  unfold tryUpdate, findSlot, store_value. rewrite tryUpdate_subs_spec.
  destruct (findSlot_subs (subarrays m) k); cbn; [reflexivity |].
  rewrite mkMap_eta. reflexivity.
Qed.

(** The outer loop of [doInsert] either leaves every region as it is and
    falls through, or returns after one eligible region took the key. *)
Lemma doInsert_subs_spec (subs : list Subarray) (k : K) (v : V) :
  (placed (doInsert_subs subs k v) = false /\
   after (doInsert_subs subs k v) = subs) \/
  (placed (doInsert_subs subs k v) = true /\
   exists i sub sub',
     subs !! i = Some sub /\ eligible sub = true /\
     (doInsert_in sub k v).1 = Some sub' /\
     after (doInsert_subs subs k v) = <[i := sub']> subs /\
     Forall (fun s => eligible s = true -> (doInsert_in s k v).1 = None)
            (take i subs)).
Proof.
  induction subs as [|sub rest IH]; cbn [doInsert_subs]; [left; auto |].
  destruct (eligible sub) eqn:El.
  - destruct ((doInsert_in sub k v).1) as [sub'|] eqn:Ed; cbn.
    + right. split; [reflexivity |]. exists O, sub, sub'. cbn.
      repeat split; auto.
    + destruct IH as [[Hp Ha]|(Hp & i & s & s' & Hi & He & Hd & Ha & Hall)].
      * left. rewrite Hp, Ha. auto.
      * right. split; [exact Hp |]. exists (S i), s, s'. cbn. rewrite Ha.
        repeat split; auto.
  - cbn. destruct IH as [[Hp Ha]|(Hp & i & s & s' & Hi & He & Hd & Ha & Hall)].
    + left. rewrite Hp, Ha. auto.
    + right. split; [exact Hp |]. exists (S i), s, s'. cbn. rewrite Ha.
      repeat split; auto. constructor; [congruence | exact Hall].
Qed.

(** [doInsert] reads slots of eligible regions only. *)
Lemma doInsert_subs_probed (subs : list Subarray) (k : K) (v : V) :
  forall i idx,
    (i, idx) ∈ probed (doInsert_subs subs k v) ->
    exists sub, subs !! i = Some sub /\ eligible sub = true /\
                idx ∈ (doInsert_in sub k v).2.
Proof.
  induction subs as [|sub rest IH]; intros i idx; cbn [doInsert_subs].
  - cbn. intros H. inversion H.
  - assert (Hrest : (i, idx) ∈ next_region <$> probed (doInsert_subs rest k v) ->
                    exists s, (sub :: rest) !! i = Some s /\ eligible s = true /\
                              idx ∈ (doInsert_in s k v).2).
    { intros H. apply list_elem_of_fmap in H as ([i' idx'] & Heq & Hin).
      unfold next_region in Heq. cbn in Heq. injection Heq as -> ->.
      apply IH in Hin. exact Hin. }
    assert (Hhead : eligible sub = true ->
                    (i, idx) ∈ pair O <$> (doInsert_in sub k v).2 ->
                    exists s, (sub :: rest) !! i = Some s /\ eligible s = true /\
                              idx ∈ (doInsert_in s k v).2).
    { intros El H. apply list_elem_of_fmap in H as (idx' & Heq & Hin).
      injection Heq as -> ->. exists sub. auto. }
    destruct (eligible sub) eqn:El.
    + destruct ((doInsert_in sub k v).1); cbn.
      * auto.
      * rewrite elem_of_app. intros [H|H]; auto.
    + cbn. exact Hrest.
Qed.


(** ** Single-region updates *)

Lemma alter_as_insert {A} (f : A -> A) (l : list A) :
  forall i x, l !! i = Some x -> alter f i l = <[i := f x]> l.
Proof.
  induction l as [|a l IH]; intros i x Hi; [discriminate |].
  destruct i as [|i]; simpl in *.
  - congruence.
  - f_equal. apply IH, Hi.
Qed.

Lemma insert_Forall2 {A} (R : A -> A -> Prop) (l : list A) (i : nat) (x y : A) :
  (forall a, R a a) -> l !! i = Some x -> R x y -> Forall2 R l (<[i := y]> l).
Proof.
  intros Hrefl Hi Hxy.
  rewrite <- (list_insert_id l i x Hi) at 1.
  apply Forall2_insert; [|exact Hxy].
  apply Forall_Forall2_diag, Forall_forall. auto.
Qed.

Lemma region_grows_refl (sub : Subarray) : region_grows sub sub.
Proof. split; [reflexivity | lia]. Qed.

Lemma regions_grow_refl (subs : list Subarray) :
  Forall2 region_grows subs subs.
Proof. apply Forall_Forall2_diag, Forall_forall. auto using region_grows_refl. Qed.

Lemma regions_grow_trans (a b c : list Subarray) :
  Forall2 region_grows a b -> Forall2 region_grows b c ->
  Forall2 region_grows a c.
Proof.
  intros Hab. revert c. induction Hab as [|x y a b [Hc Hs] _ IH]; intros c Hbc;
    inversion Hbc as [|y' z b' c' [Hc' Hs'] Hrest]; subst; constructor.
  - split; [congruence | lia].
  - apply IH, Hrest.
Qed.

Lemma updates_region_grows (m m' : ElasticHashMap) (i : nat)
    (sub sub' : Subarray) :
  updates_region m m' i sub sub' ->
  wf_map m -> wf_sub sub' -> region_grows sub sub' ->
  wf_map m' /\ Forall2 region_grows (subarrays m) (subarrays m').
Proof.
  intros [Hi Hm'] Hwf Hwf' Hg. unfold wf_map. rewrite Hm'. split.
  - apply Forall_insert; assumption.
  - apply (insert_Forall2 _ _ _ sub); auto using region_grows_refl.
Qed.

(** The slot a lookup returns is an occupied slot inside its region, and
    its key compares equal to the one looked up. *)
Lemma findSlot_sound (m : ElasticHashMap) (k : K) (p : nat * Z) :
  wf_map m -> findSlot m k = Some p ->
  exists sub, subarrays m !! p.1 = Some sub /\
              0 <= p.2 < capacity sub /\
              occupied (slot_at sub p.2) = true /\
              key_eqb (key (slot_at sub p.2)) k = true.
Proof.
  intros Hwf H. destruct p as [i idx]. unfold findSlot in H.
  apply findSlot_subs_Some in H as (sub & Hi & Hf & _).
  exists sub. split; [exact Hi |]. apply findSlot_in_sound; [|exact Hf].
  apply (Forall_lookup_1 _ _ _ _ Hwf) in Hi. apply Hi.
Qed.

Lemma store_value_updates (m : ElasticHashMap) (p : nat * Z) (v : V)
    (sub : Subarray) :
  subarrays m !! p.1 = Some sub ->
  updates_region m (store_value m p v) p.1 sub (write_value sub p.2 v).
Proof.
  intros Hi. split; [exact Hi |]. unfold store_value. cbn.
  apply (alter_as_insert (fun s => write_value s p.2 v)), Hi.
Qed.

Lemma store_value_grows (m : ElasticHashMap) (k : K) (p : nat * Z) (v : V) :
  wf_map m -> findSlot m k = Some p ->
  wf_map (store_value m p v) /\
  Forall2 region_grows (subarrays m) (subarrays (store_value m p v)).
Proof.
  intros Hwf H. destruct (findSlot_sound _ _ _ Hwf H) as (sub & Hi & Hr & _).
  apply (updates_region_grows _ _ p.1 sub (write_value sub p.2 v)).
  - apply store_value_updates, Hi.
  - exact Hwf.
  - apply wf_sub_write_value; [|exact Hr].
    apply (Forall_lookup_1 _ _ _ _ Hwf Hi).
  - split; cbn; [reflexivity | lia].
Qed.

(** ** [doInsert] *)

Lemma doInsert_Throw (m : ElasticHashMap) (k : K) (v : V) (e : exn)
    (m' : ElasticHashMap) :
  doInsert m k v = Throw e m' -> m' = m /\ e = CapacityExhausted.
Proof.
  unfold doInsert.
  destruct (doInsert_subs_spec (subarrays m) k v) as [[Hp Ha]|[Hp _]];
    rewrite Hp; [|discriminate].
  rewrite Ha, mkMap_eta. intros [= <- <-]. auto.
Qed.

Lemma doInsert_Ok (m : ElasticHashMap) (k : K) (v : V) (m' : ElasticHashMap) :
  wf_map m -> doInsert m k v = Ok tt m' ->
  exists i sub idx,
    subarrays m !! i = Some sub /\ eligible sub = true /\
    0 <= idx < capacity sub /\
    ((occupied (slot_at sub idx) = false /\
      (doInsert_in sub k v).1 = Some (place sub idx k v) /\
      updates_region m m' i sub (place sub idx k v)) \/
     (occupied (slot_at sub idx) = true /\
      updates_region m m' i sub (write_value sub idx v))) /\
    Forall (fun s => eligible s = true -> (doInsert_in s k v).1 = None)
           (take i (subarrays m)).
Proof.
  intros Hwf. unfold doInsert.
  destruct (doInsert_subs_spec (subarrays m) k v)
    as [[Hp Ha]|(Hp & i & sub & sub' & Hi & He & Hd & Ha & Hall)];
    rewrite Hp; [discriminate |].
  intros [= <-]. exists i, sub.
  pose proof (Forall_lookup_1 _ _ _ _ Hwf Hi) as Hsub.
  destruct (doInsert_probe_cases _ _ _ _ _ _ _ Hd) as (idx & [q ->] & Hcase).
  exists (probe_index (hashOf k) q (capacity sub)).
  split; [exact Hi |]. split; [exact He |].
  split; [apply probe_index_range, Hsub |].
  split; [|exact Hall].
  destruct Hcase as [[Ho ->]|[Ho ->]]; [left | right]; repeat split; auto.
Qed.


Lemma map_grows_refl (m : ElasticHashMap) : wf_map m -> map_grows m m.
Proof. intros H. split; [exact H | apply regions_grow_refl]. Qed.

Lemma map_grows_trans (a b c : ElasticHashMap) :
  map_grows a b -> map_grows b c -> map_grows a c.
Proof.
  intros [_ Hab] [Hc Hbc]. split; [exact Hc |].
  eapply regions_grow_trans; eassumption.
Qed.

Lemma doInsert_grows (m : ElasticHashMap) (k : K) (v : V) :
  wf_map m -> map_grows m (state_after (doInsert m k v)).
Proof.
  intros Hwf. destruct (doInsert m k v) as [[] m'|e m'] eqn:E; cbn.
  - destruct (doInsert_Ok _ _ _ _ Hwf E)
      as (i & sub & idx & Hi & _ & Hr & Hcase & _).
    pose proof (Forall_lookup_1 _ _ _ _ Hwf Hi) as Hsub.
    destruct Hcase as [(Ho & _ & Hu)|(Ho & Hu)].
    + destruct (wf_sub_place sub idx k v Hsub Hr Ho) as [Hwf' Hsz].
      apply (updates_region_grows _ _ _ _ _ Hu Hwf Hwf').
      split; [reflexivity | lia].
    + apply (updates_region_grows _ _ _ _ _ Hu Hwf).
      * apply wf_sub_write_value; assumption.
      * split; cbn; [reflexivity | lia].
  - apply doInsert_Throw in E as [-> _]. apply map_grows_refl, Hwf.
Qed.

Lemma insertOrUpdate_grows (m : ElasticHashMap) (k : K) (v : V) :
  wf_map m -> map_grows m (state_after (insertOrUpdate m k v)).
Proof.
  intros Hwf. unfold insertOrUpdate. rewrite tryUpdate_spec.
  destruct (findSlot m k) as [p|] eqn:Ef; cbn.
  - apply store_value_grows with (k := k); assumption.
  - apply doInsert_grows, Hwf.
Qed.

Lemma operator_index_grows (m : ElasticHashMap) (k : K) :
  wf_map m -> map_grows m (state_after (operator_index m k)).
Proof.
  intros Hwf. unfold operator_index.
  destruct (findSlot m k) as [p|] eqn:Ef; cbn; [apply map_grows_refl, Hwf |].
  pose proof (insertOrUpdate_grows m k V_default Hwf) as Hg.
  destruct (insertOrUpdate m k V_default) as [[] m'|e m']; cbn in *;
    [|exact Hg].
  destruct (findSlot m' k); exact Hg.
Qed.

Lemma exec_grows (op : Op) (m : ElasticHashMap) :
  wf_map m -> map_grows m (state_after (exec op m)).
Proof.
  intros Hwf. destruct op as [k|k v|k|k v]; cbn [exec].
  - apply map_grows_refl, Hwf.
  - apply insertOrUpdate_grows, Hwf.
  - pose proof (operator_index_grows m k Hwf) as Hg.
    destruct (operator_index m k); exact Hg.
  - pose proof (operator_index_grows m k Hwf) as Hg.
    unfold operator_index in *.
    destruct (findSlot m k) as [p|] eqn:Ef; cbn in *.
    + apply store_value_grows with (k := k); assumption.
    + destruct (insertOrUpdate m k V_default) as [[] m'|e m']; cbn in *;
        [|exact Hg].
      destruct (findSlot m' k) as [p|] eqn:Ef'; cbn in *; [|exact Hg].
      apply (map_grows_trans _ m'); [exact Hg |].
      apply store_value_grows with (k := k); [apply Hg | exact Ef'].
Qed.

Lemma run_catch_grows (ops : list Op) :
  forall m, wf_map m -> map_grows m (run_catch ops m).
Proof.
  induction ops as [|op ops IH]; intros m Hwf; cbn [run_catch].
  - apply map_grows_refl, Hwf.
  - pose proof (exec_grows op m Hwf) as Hg.
    apply (map_grows_trans _ (state_after (exec op m))); [exact Hg |].
    apply IH, Hg.
Qed.

Lemma run_ok_catch (ops : list Op) :
  forall m m', run_ok ops m = Some m' -> run_catch ops m = m'.
Proof.
  induction ops as [|op ops IH]; intros m m'; cbn [run_ok run_catch].
  - congruence.
  - destruct (exec op m) as [[] m1|e m1]; [|discriminate]. apply IH.
Qed.

Lemma run_catch_app (ops1 ops2 : list Op) (m : ElasticHashMap) :
  run_catch (ops1 ++ ops2) m = run_catch ops2 (run_catch ops1 m).
Proof.
  revert m. induction ops1 as [|op ops1 IH]; intros m; cbn; [reflexivity |].
  apply IH.
Qed.

(** ** Freshly constructed maps *)

Lemma occupiedCount_replicate (n : nat) :
  occupiedCount (replicate n emptySlot) = 0.
Proof. induction n as [|n IH]; cbn; [reflexivity | rewrite IH; reflexivity]. Qed.

Lemma newSubarray_wf (c : Z) :
  0 < c < size_t_modulus -> wf_sub (newSubarray c).
Proof.
  intros Hc. split; cbn.
  - rewrite length_replicate. lia.
  - rewrite occupiedCount_replicate. reflexivity.
  - exact Hc.
Qed.

Lemma newSubarray_empty (c idx : Z) :
  occupied (slot_at (newSubarray c) idx) = false.
Proof.
  unfold slot_at, newSubarray. cbn.
  destruct (replicate (Z.to_nat c) emptySlot !! Z.to_nat idx) as [s|] eqn:E;
    [|reflexivity].
  apply lookup_replicate in E as [-> _]. reflexivity.
Qed.

Lemma ctor_subarrays (n : Z) (m : ElasticHashMap) :
  ElasticHashMap_ctor n = Some m ->
  exists caps, subarrays m = newSubarray <$> caps /\
               Forall (fun c => 0 < c <= Z.max n 8) caps.
Proof.
  unfold ElasticHashMap_ctor.
  destruct (region_sizes_total n) as (l & Hl & _ & Hall). rewrite Hl. cbn.
  intros [= <-]. exists l. auto.
Qed.

Lemma ctor_wf (n : Z) (m : ElasticHashMap) :
  n < size_t_modulus -> ElasticHashMap_ctor n = Some m -> wf_map m.
Proof.
  intros Hn Hm. destruct (ctor_subarrays n m Hm) as (caps & Hs & Hall).
  unfold wf_map. rewrite Hs. apply Forall_fmap.
  eapply Forall_impl; [| exact Hall]. cbn. intros c Hc.
  apply newSubarray_wf. unfold size_t_modulus in *. lia.
Qed.

Lemma wf_size_accurate (m : ElasticHashMap) :
  wf_map m -> Forall size_accurate (subarrays m).
Proof.
  intros Hwf. eapply Forall_impl; [| exact Hwf]. cbn. intros sub Hsub.
  split; [apply Hsub | apply wf_sub_size_le, Hsub].
Qed.

Lemma regions_grow_capacities (a b : list Subarray) :
  Forall2 region_grows a b -> capacity <$> b = capacity <$> a.
Proof.
  induction 1 as [|x y a b [Hc _] _ IH]; cbn; [reflexivity |].
  rewrite Hc, IH. reflexivity.
Qed.

(** C9. In every state reached from a constructed map, before and after any
    further call, each region's [size] equals its number of occupied slots
    and is at most its [capacity]; across the call no region's [size]
    decreases and no [capacity] changes, so the capacities are still those
    the constructor chose. *)
Theorem region_size_invariant (n : Z) (m0 : ElasticHashMap)
    (ops : list Op) (op : Op) :
  n < size_t_modulus ->
  ElasticHashMap_ctor n = Some m0 ->
  Forall size_accurate (subarrays (run_catch ops m0)) /\
  Forall size_accurate
         (subarrays (state_after (exec op (run_catch ops m0)))) /\
  Forall2 region_grows (subarrays (run_catch ops m0))
          (subarrays (state_after (exec op (run_catch ops m0)))) /\
  capacities (state_after (exec op (run_catch ops m0))) = capacities m0.
Proof.
  intros Hn Hm0. pose proof (ctor_wf n m0 Hn Hm0) as Hwf0.
  destruct (run_catch_grows ops m0 Hwf0) as [Hwf Hg].
  destruct (exec_grows op _ Hwf) as [Hwf' Hg'].
  repeat split.
  - apply wf_size_accurate, Hwf.
  - apply wf_size_accurate, Hwf'.
  - exact Hg'.
  - unfold capacities.
    rewrite (regions_grow_capacities _ _ Hg').
    apply regions_grow_capacities, Hg.
Qed.


(** ** The admission test *)

(** Where neither product wraps, the test of [doInsert] is the comparison
    of the fill fraction with 90%. *)
Lemma eligible_below_threshold (sub : Subarray) :
  wf_sub sub -> capacity sub * 10 < size_t_modulus ->
  (eligible sub = true <-> below_threshold sub).
Proof.
  intros Hwf Hcap. pose proof (wf_sub_size_le sub Hwf) as Hsz.
  pose proof (wf_capacity _ Hwf) as Hc.
  unfold eligible, below_threshold, wrap.
  rewrite !Z.mod_small by lia. apply Z.ltb_lt.
Qed.

(** C5. [doInsert] reads slots only in regions that pass its admission
    test, and a call of [insertOrUpdate] that returns normally has made a
    region grow only if that region passed the test beforehand. The test
    is [size * 10 < capacity * 9] in [size_t]; where [capacity * 10] does
    not wrap it says that the fill fraction is strictly below 90%. *)
Theorem insertion_respects_fill_threshold (m : ElasticHashMap) (k : K) (v : V) :
  wf_map m ->
  (forall i idx, (i, idx) ∈ doInsert_probed m k v ->
     exists sub, subarrays m !! i = Some sub /\ eligible sub = true /\
                 (capacity sub * 10 < size_t_modulus -> below_threshold sub)) /\
  (forall m' i sub sub',
     insertOrUpdate m k v = Ok tt m' ->
     subarrays m !! i = Some sub -> subarrays m' !! i = Some sub' ->
     size sub < size sub' ->
     eligible sub = true /\
     (capacity sub * 10 < size_t_modulus -> below_threshold sub)).
Proof.
  intros Hwf. split.
  - intros i idx Hin. unfold doInsert_probed in Hin.
    apply doInsert_subs_probed in Hin as (sub & Hi & He & _).
    exists sub. repeat split; [exact Hi | exact He |].
    intros Hcap. apply eligible_below_threshold; [|exact Hcap | exact He].
    apply (Forall_lookup_1 _ _ _ _ Hwf Hi).
  - intros m' i sub sub' Hput Hi Hi' Hlt.
    unfold insertOrUpdate in Hput. rewrite tryUpdate_spec in Hput.
    destruct (findSlot m k) as [p|] eqn:Ef; cbn in Hput.
    + exfalso. injection Hput as <-.
      destruct (findSlot_sound _ _ _ Hwf Ef) as (s & Hs & _).
      destruct (store_value_updates m p v s Hs) as [_ Hm'].
      rewrite Hm' in Hi'.
      destruct (decide (p.1 = i)) as [<-|Hne].
      * rewrite list_lookup_insert_eq in Hi'
          by (apply lookup_lt_Some in Hs; exact Hs).
        injection Hi' as <-. rewrite Hs in Hi. injection Hi as <-.
        cbn in Hlt. lia.
      * rewrite list_lookup_insert_ne in Hi' by exact Hne.
        rewrite Hi in Hi'. injection Hi' as <-. lia.
    + destruct (doInsert_Ok _ _ _ _ Hwf Hput)
        as (j & s & idx & Hj & He & Hr & Hcase & _).
      assert (Hm' : exists s', subarrays m' = <[j := s']> (subarrays m)).
      { destruct Hcase as [(_ & _ & _ & Hu)|(_ & _ & Hu)]; eauto. }
      destruct Hm' as [s' Hm']. rewrite Hm' in Hi'.
      destruct (decide (j = i)) as [<-|Hne].
      * rewrite Hj in Hi. injection Hi as <-.
        split; [exact He |]. intros Hcap.
        apply eligible_below_threshold; [|exact Hcap | exact He].
        apply (Forall_lookup_1 _ _ _ _ Hwf Hj).
      * rewrite list_lookup_insert_ne in Hi' by exact Hne.
        rewrite Hi in Hi'. injection Hi' as <-. lia.
Qed.

(** ** Failure *)

Lemma insertOrUpdate_Throw (m : ElasticHashMap) (k : K) (v : V) (e : exn)
    (m' : ElasticHashMap) :
  insertOrUpdate m k v = Throw e m' ->
  m' = m /\ e = CapacityExhausted /\ findSlot m k = None.
Proof.
  unfold insertOrUpdate. rewrite tryUpdate_spec.
  destruct (findSlot m k) as [p|]; cbn; [discriminate |].
  intros H. apply doInsert_Throw in H as [-> ->]. auto.
Qed.

(** C7. When an insertion fails, by [doInsert] itself or through
    [insertOrUpdate], the exception is the one raised at the end of
    [doInsert] and the map is exactly as it was before the call: no slot
    and no [size] has changed. *)
Theorem failed_insert_leaves_map_unchanged (m : ElasticHashMap) (k : K)
    (v : V) (e : exn) (m' : ElasticHashMap) :
  doInsert m k v = Throw e m' \/ insertOrUpdate m k v = Throw e m' ->
  m' = m /\ e = CapacityExhausted.
Proof.
  intros [H|H].
  - apply doInsert_Throw in H. exact H.
  - apply insertOrUpdate_Throw in H as (Hm & He & _). auto.
Qed.



(** ** Probe sequences *)









(** ** Keys compared by a lawful equality *)

Section LawfulKeys.

Hypothesis key_eqb_eq : forall a b : K, key_eqb a b = true <-> a = b.

Lemma key_eqb_refl (k : K) : key_eqb k k = true.
Proof. apply key_eqb_eq. reflexivity. Qed.

Lemma key_eqb_neq (a b : K) : a <> b -> key_eqb a b = false.
Proof.
  intros Hne. destruct (key_eqb a b) eqn:E; [|reflexivity].
  apply key_eqb_eq in E. contradiction.
Qed.

(** After a failed lookup of [k], [doInsert] claims the first empty slot of
    the probe sequence, and a lookup of [k] then stops exactly there. *)
Lemma doInsert_probe_fresh (sub : Subarray) (k : K) (v : V) (h : Z) :
  Z.of_nat (length (slots sub)) = capacity sub -> 0 < capacity sub ->
  forall n p sub',
    (findSlot_probe sub k h n p).1 = None ->
    (doInsert_probe sub k v h n p).1 = Some sub' ->
    exists idx,
      0 <= idx < capacity sub /\ occupied (slot_at sub idx) = false /\
      sub' = place sub idx k v /\
      (findSlot_probe sub' k h n p).1 = Some idx.
Proof.
  intros Hlen Hcap. induction n as [|n IH]; intros p sub';
    cbn [findSlot_probe doInsert_probe]; [discriminate |].
  pose proof (probe_index_range h p _ Hcap) as Hr0.
  destruct (occupied (slot_at sub (probe_index h p (capacity sub)))) eqn:Eo;
    cbn [negb andb].
  - destruct (key_eqb _ k) eqn:Ek; cbn; [discriminate |].
    intros Hf Hd. destruct (IH _ _ Hf Hd) as (idx & Hr & Ho & -> & Hfind).
    exists idx. repeat split; try assumption; try lia.
    cbn [findSlot_probe].
    change (capacity (place sub idx k v)) with (capacity sub).
    rewrite slot_at_place_other by (try lia; congruence).
    rewrite Eo, Ek. cbn. exact Hfind.
  - intros _ [= <-]. eexists. repeat split; try eassumption; try lia.
    cbn [findSlot_probe].
    change (capacity (place sub ?i k v)) with (capacity sub).
    rewrite slot_at_place_same by assumption. cbn.
    rewrite key_eqb_refl. reflexivity.
Qed.

(** Claiming an empty slot does not disturb a lookup that succeeded. *)
Lemma findSlot_probe_place_keeps (sub : Subarray) (idx : Z) (k k' : K)
    (v : V) (h : Z) :
  0 < capacity sub -> 0 <= idx ->
  occupied (slot_at sub idx) = false ->
  forall n p j,
    (findSlot_probe sub k' h n p).1 = Some j ->
    (findSlot_probe (place sub idx k v) k' h n p).1 = Some j.
Proof.
  intros Hcap Hidx Hocc. induction n as [|n IH]; intros p j;
    cbn [findSlot_probe]; [discriminate |].
  change (capacity (place sub idx k v)) with (capacity sub).
  pose proof (probe_index_range h p _ Hcap) as Hr0.
  destruct (occupied (slot_at sub (probe_index h p (capacity sub)))) eqn:Eo;
    cbn [negb andb]; [|discriminate].
  rewrite slot_at_place_other by (try lia; congruence).
  rewrite Eo. cbn [negb andb].
  destruct (key_eqb _ k'); cbn; [auto |]. apply IH.
Qed.

(** A lookup of another key that succeeds after the claim finds a slot that
    held that key before. *)
Lemma findSlot_in_place_hit (sub : Subarray) (idx : Z) (k k' : K) (v : V)
    (j : Z) :
  Z.of_nat (length (slots sub)) = capacity sub ->
  0 <= idx < capacity sub -> k' <> k ->
  (findSlot_in (place sub idx k v) k').1 = Some j ->
  0 <= j < capacity sub /\ j <> idx /\
  occupied (slot_at sub j) = true /\ key (slot_at sub j) = k'.
Proof.
  intros Hlen Hidx Hne Hf.
  apply findSlot_in_sound in Hf as (Hr & Ho & Hk); [|cbn; lia].
  cbn in Hr. apply key_eqb_eq in Hk.
  destruct (decide (j = idx)) as [->|Hj].
  - rewrite slot_at_place_same in Hk by assumption. cbn in Hk. congruence.
  - rewrite slot_at_place_other in Ho, Hk by lia. auto.
Qed.

Lemma place_scan_other (sub : Subarray) (idx : Z) (k k' : K) (v : V) :
  Z.of_nat (length (slots sub)) = capacity sub ->
  0 <= idx < capacity sub ->
  occupied (slot_at sub idx) = false -> k' <> k ->
  (forall j, 0 <= j < capacity sub -> occupied (slot_at sub j) = true ->
             key (slot_at sub j) = k' -> (findSlot_in sub k').1 = Some j) ->
  (findSlot_in (place sub idx k v) k').1 = (findSlot_in sub k').1.
Proof.
  intros Hlen Hidx Hocc Hne Hlocal.
  destruct ((findSlot_in (place sub idx k v) k').1) as [j|] eqn:E.
  - apply findSlot_in_place_hit in E as (Hr & _ & Ho & Hk); try assumption.
    symmetry. apply Hlocal; assumption.
  - destruct ((findSlot_in sub k').1) as [j|] eqn:E'; [|reflexivity].
    unfold findSlot_in in E, E'.
    apply (findSlot_probe_place_keeps sub idx k k' v) in E'; try lia;
      try assumption.
    change (capacity (place sub idx k v)) with (capacity sub) in E.
    congruence.
Qed.


(** ** Effect of a single-region update on lookups *)

Lemma findSlot_in_same_keys (sub sub' : Subarray) (k : K) :
  same_keys sub sub' -> 0 < capacity sub ->
  findSlot_in sub' k = findSlot_in sub k.
Proof.
  intros Hsk Hc. unfold findSlot_in. rewrite <- (proj1 Hsk).
  apply findSlot_probe_same_keys; assumption.
Qed.

Lemma updates_findSlot_ext (m m' : ElasticHashMap) (i : nat)
    (sub sub' : Subarray) (k : K) :
  updates_region m m' i sub sub' ->
  (findSlot_in sub' k).1 = (findSlot_in sub k).1 ->
  findSlot m' k = findSlot m k.
Proof.
  intros [Hi Hm'] Hscan. unfold findSlot. rewrite Hm'.
  apply findSlot_subs_ext.
  apply (insert_Forall2
           (fun s s' => (findSlot_in s' k).1 = (findSlot_in s k).1)
           _ _ sub); auto.
Qed.

Lemma updates_findSlot_hit (m m' : ElasticHashMap) (i : nat)
    (sub sub' : Subarray) (k : K) (idx : Z) :
  updates_region m m' i sub sub' ->
  Forall (fun s => (findSlot_in s k).1 = None) (take i (subarrays m)) ->
  (findSlot_in sub' k).1 = Some idx ->
  findSlot m' k = Some (i, idx).
Proof.
  intros [Hi Hm'] Hnone Hscan. unfold findSlot. rewrite Hm'.
  apply findSlot_subs_Some. exists sub'. repeat split.
  - apply list_lookup_insert_eq. apply lookup_lt_Some in Hi. exact Hi.
  - exact Hscan.
  - rewrite take_insert_ge by lia. exact Hnone.
Qed.

Lemma updates_slot_of (m m' : ElasticHashMap) (i : nat) (sub sub' : Subarray)
    (q : nat * Z) :
  updates_region m m' i sub sub' ->
  slot_of m' q = if decide (q.1 = i) then slot_at sub' q.2 else slot_of m q.
Proof.
  intros [Hi Hm']. unfold slot_of. rewrite Hm'.
  destruct (decide (q.1 = i)) as [->|Hne].
  - rewrite list_lookup_insert_eq by (apply lookup_lt_Some in Hi; exact Hi).
    reflexivity.
  - rewrite list_lookup_insert_ne by congruence. reflexivity.
Qed.

Lemma updates_stored (m m' : ElasticHashMap) (i : nat) (sub sub' : Subarray)
    (j : nat) (jdx : Z) (k : K) :
  updates_region m m' i sub sub' ->
  stored m' j jdx k ->
  (j = i /\ 0 <= jdx < capacity sub' /\
   occupied (slot_at sub' jdx) = true /\ key (slot_at sub' jdx) = k) \/
  (j <> i /\ stored m j jdx k).
Proof.
  intros [Hi Hm'] (s & Hs & Hr & Ho & Hk). rewrite Hm' in Hs.
  destruct (decide (j = i)) as [->|Hne].
  - rewrite list_lookup_insert_eq in Hs
      by (apply lookup_lt_Some in Hi; exact Hi).
    injection Hs as <-. left. auto.
  - rewrite list_lookup_insert_ne in Hs by congruence.
    right. split; [exact Hne |]. exists s. auto.
Qed.

Lemma findable_scan (m : ElasticHashMap) (i : nat) (sub : Subarray) (k : K)
    (j : Z) :
  findable m -> subarrays m !! i = Some sub ->
  0 <= j < capacity sub -> occupied (slot_at sub j) = true ->
  key (slot_at sub j) = k ->
  (findSlot_in sub k).1 = Some j.
Proof.
  intros Hf Hi Hr Ho Hk.
  assert (Hst : stored m i j k) by (exists sub; auto).
  apply Hf in Hst. unfold findSlot in Hst.
  apply findSlot_subs_Some in Hst as (s & Hs & Hscan & _). congruence.
Qed.

(** *** Writing through a found slot *)

Lemma store_value_findSlot (m : ElasticHashMap) (k k' : K) (p : nat * Z)
    (v : V) :
  wf_map m -> findSlot m k = Some p ->
  findSlot (store_value m p v) k' = findSlot m k'.
Proof.
  intros Hwf Hp. destruct (findSlot_sound _ _ _ Hwf Hp) as (sub & Hi & Hr & _).
  apply (updates_findSlot_ext _ _ _ _ _ _ (store_value_updates m p v sub Hi)).
  f_equal. apply findSlot_in_same_keys.
  - apply write_value_same_keys. lia.
  - apply (Forall_lookup_1 _ _ _ _ Hwf Hi).
Qed.

Lemma store_value_good (m : ElasticHashMap) (k : K) (p : nat * Z) (v : V) :
  good m -> findSlot m k = Some p -> good (store_value m p v).
Proof.
  intros [Hwf Hf] Hp. split; [apply (store_value_grows m k); assumption |].
  destruct (findSlot_sound _ _ _ Hwf Hp) as (sub & Hi & Hr & _).
  pose proof (store_value_updates m p v sub Hi) as Hu.
  pose proof (write_value_same_keys sub p.2 v ltac:(lia)) as [Hc Hsk].
  intros j jdx k' Hst. rewrite (store_value_findSlot m k k' p v Hwf Hp).
  apply Hf. destruct (updates_stored _ _ _ _ _ _ _ _ Hu Hst)
    as [(-> & Hr' & Ho & Hk)|[_ Hst']]; [|exact Hst'].
  exists sub. rewrite <- Hc in Hr'. destruct (Hsk jdx Hr') as [Eo Ek].
  rewrite Eo in Ho. rewrite Ek in Hk. auto.
Qed.

Lemma store_value_holds (m : ElasticHashMap) (k k' : K) (p' : nat * Z)
    (v w : V) :
  good m -> findSlot m k' = Some p' -> holds m k w ->
  holds (store_value m p' v) k (if key_eqb k' k then v else w).
Proof.
  intros [Hwf Hf] Hp' (p & Hp & Hval).
  destruct (findSlot_sound _ _ _ Hwf Hp') as (sub' & Hi' & Hr' & _ & Hk').
  destruct (findSlot_sound _ _ _ Hwf Hp) as (sub & Hi & Hr & _ & Hk).
  apply key_eqb_eq in Hk, Hk'.
  exists p. split; [rewrite (store_value_findSlot m k' k p' v Hwf Hp'); exact Hp |].
  rewrite (updates_slot_of _ _ _ _ _ p (store_value_updates m p' v sub' Hi')).
  destruct (key_eqb k' k) eqn:E.
  - apply key_eqb_eq in E. subst k'. assert (p' = p) as -> by congruence.
    rewrite decide_True by reflexivity.
    rewrite slot_at_write_value by lia.
    rewrite decide_True; [reflexivity |].
    split; [reflexivity |]. apply (Forall_lookup_1 _ _ _ _ Hwf) in Hi'.
    pose proof (wf_length _ Hi'). lia.
  - assert (Hne : k' <> k).
    { intros ->. rewrite key_eqb_refl in E. discriminate. }
    destruct (decide (p.1 = p'.1)) as [E1|_]; [|exact Hval].
    rewrite slot_at_write_value by lia.
    rewrite decide_False; [unfold slot_of in Hval; rewrite E1, Hi' in Hval; exact Hval |].
    intros [E2 _]. rewrite E1, Hi' in Hi. injection Hi as <-.
    rewrite E2 in Hk'. congruence.
Qed.


Lemma store_value_self (m : ElasticHashMap) (k : K) (p : nat * Z) (v : V) :
  wf_map m -> findSlot m k = Some p ->
  holds (store_value m p v) k v.
Proof.
  intros Hwf Hp. destruct (findSlot_sound _ _ _ Hwf Hp) as (sub & Hi & Hr & _).
  exists p. split; [rewrite (store_value_findSlot m k k p v Hwf Hp); exact Hp |].
  rewrite (updates_slot_of _ _ _ _ _ p (store_value_updates m p v sub Hi)).
  rewrite decide_True by reflexivity.
  rewrite slot_at_write_value by lia.
  rewrite decide_True; [reflexivity |].
  split; [reflexivity |]. apply (Forall_lookup_1 _ _ _ _ Hwf) in Hi.
  pose proof (wf_length _ Hi). lia.
Qed.

(** *** Inserting a key that no lookup finds *)

Lemma doInsert_fresh (m : ElasticHashMap) (k : K) (v : V)
    (m' : ElasticHashMap) :
  wf_map m -> findSlot m k = None -> doInsert m k v = Ok tt m' ->
  exists i sub idx,
    updates_region m m' i sub (place sub idx k v) /\
    0 <= idx < capacity sub /\ occupied (slot_at sub idx) = false /\
    findSlot m' k = Some (i, idx).
Proof.
  intros Hwf Hnone. unfold doInsert.
  destruct (doInsert_subs_spec (subarrays m) k v)
    as [[Hp _]|(Hp & i & sub & sub' & Hi & _ & Hd & Ha & _)];
    rewrite Hp; [discriminate |].
  intros [= <-]. unfold findSlot in Hnone. apply findSlot_subs_None in Hnone.
  pose proof (Forall_lookup_1 _ _ _ _ Hwf Hi) as [Hlen _ Hcap].
  pose proof (Forall_lookup_1 _ _ _ _ Hnone Hi) as Hscan. cbn in Hscan.
  destruct (doInsert_probe_fresh sub k v _ Hlen (proj1 Hcap) _ _ _ Hscan Hd)
    as (idx & Hr & Ho & -> & Hfind).
  exists i, sub, idx.
  assert (Hu : updates_region m (mkMap (after (doInsert_subs (subarrays m) k v)))
                              i sub (place sub idx k v)) by (split; assumption).
  repeat split; try assumption; try lia.
  apply (updates_findSlot_hit _ _ _ _ _ _ _ Hu);
    [apply Forall_take, Hnone | exact Hfind].
Qed.

Lemma doInsert_fresh_good (m : ElasticHashMap) (k : K) (v : V)
    (m' : ElasticHashMap) :
  good m -> findSlot m k = None -> doInsert m k v = Ok tt m' ->
  good m' /\ holds m' k v /\ (forall k' w, holds m k' w -> holds m' k' w).
Proof.
  intros [Hwf Hf] Hnone Hd.
  destruct (doInsert_fresh m k v m' Hwf Hnone Hd)
    as (i & sub & idx & Hu & Hr & Ho & Hfind).
  pose proof (proj1 Hu) as Hi.
  pose proof (Forall_lookup_1 _ _ _ _ Hwf Hi) as [Hlen _ Hcap].
  assert (Hother : forall k', k' <> k -> findSlot m' k' = findSlot m k').
  { intros k' Hne. apply (updates_findSlot_ext _ _ _ _ _ _ Hu).
    apply place_scan_other; try assumption.
    intros j Hj Hoj Hkj. apply (findable_scan m i); assumption. }
  assert (Hwf' : wf_map m').
  { pose proof (doInsert_grows m k v Hwf) as [H _]. rewrite Hd in H. exact H. }
  assert (Hold : forall j jdx k', stored m j jdx k' ->
                                  findSlot m' k' = Some (j, jdx)).
  { intros j jdx k' Hst. rewrite Hother; [apply Hf, Hst |].
    intros ->. apply Hf in Hst. congruence. }
  split; [split; [exact Hwf' |] | split].
  - intros j jdx k' Hst.
    destruct (updates_stored _ _ _ _ _ _ _ _ Hu Hst)
      as [(-> & Hr' & Ho' & Hk')|[_ Hst']]; [|apply Hold, Hst'].
    cbn in Hr'. destruct (decide (jdx = idx)) as [->|Hne].
    + rewrite slot_at_place_same in Hk' by assumption. cbn in Hk'.
      subst k'. exact Hfind.
    + rewrite slot_at_place_other in Ho', Hk' by lia.
      apply Hold. exists sub. auto.
  - exists (i, idx). split; [exact Hfind |].
    rewrite (updates_slot_of _ _ _ _ _ (i, idx) Hu). cbn.
    rewrite decide_True by reflexivity.
    rewrite slot_at_place_same by assumption. reflexivity.
  - intros k' w (p & Hp & Hval).
    destruct (findSlot_sound _ _ _ Hwf Hp) as (s & Hs & Hrs & Hos & _).
    exists p. split.
    + rewrite Hother; [exact Hp |]. intros ->. congruence.
    + rewrite (updates_slot_of _ _ _ _ _ p Hu).
      destruct (decide (p.1 = i)) as [E|_]; [|exact Hval].
      rewrite E, Hi in Hs. injection Hs as <-.
      rewrite slot_at_place_other by (try lia; congruence).
      unfold slot_of in Hval. rewrite E, Hi in Hval. exact Hval.
Qed.

(** *** The public operations keep the invariants *)

Lemma insertOrUpdate_good (m : ElasticHashMap) (k : K) (v : V) :
  good m -> good (state_after (insertOrUpdate m k v)).
Proof.
  intros Hg. unfold insertOrUpdate. rewrite tryUpdate_spec.
  destruct (findSlot m k) as [p|] eqn:Ef; cbn.
  - apply (store_value_good m k); assumption.
  - destruct (doInsert m k v) as [[] m'|e m'] eqn:Ed; cbn.
    + apply (doInsert_fresh_good m k v m' Hg Ef Ed).
    + apply doInsert_Throw in Ed as [-> _]. exact Hg.
Qed.

Lemma insertOrUpdate_Ok_holds (m : ElasticHashMap) (k : K) (v : V)
    (m' : ElasticHashMap) :
  wf_map m -> insertOrUpdate m k v = Ok tt m' -> holds m' k v.
Proof.
  intros Hwf. unfold insertOrUpdate. rewrite tryUpdate_spec.
  destruct (findSlot m k) as [p|] eqn:Ef; cbn.
  - intros [= <-]. apply store_value_self; assumption.
  - intros Hd. destruct (doInsert_fresh m k v m' Hwf Ef Hd)
      as (i & sub & idx & Hu & Hr & Ho & Hfind).
    pose proof (Forall_lookup_1 _ _ _ _ Hwf (proj1 Hu)) as [Hlen _ _].
    exists (i, idx). split; [exact Hfind |].
    rewrite (updates_slot_of _ _ _ _ _ (i, idx) Hu). cbn.
    rewrite decide_True by reflexivity.
    rewrite slot_at_place_same by assumption. reflexivity.
Qed.

Lemma insertOrUpdate_holds (m : ElasticHashMap) (k k' : K) (v w : V) :
  good m -> holds m k w ->
  holds (state_after (insertOrUpdate m k' v)) k
        (if key_eqb k' k then v else w).
Proof.
  intros Hg Hh. unfold insertOrUpdate. rewrite tryUpdate_spec.
  destruct (findSlot m k') as [p'|] eqn:Ef; cbn.
  - apply store_value_holds; assumption.
  - assert (Hne : key_eqb k' k = false).
    { apply key_eqb_neq. intros ->. destruct Hh as (p & Hp & _). congruence. }
    rewrite Hne.
    destruct (doInsert m k' v) as [[] m'|e m'] eqn:Ed; cbn.
    + apply (doInsert_fresh_good m k' v m' Hg Ef Ed), Hh.
    + apply doInsert_Throw in Ed as [-> _]. exact Hh.
Qed.

Lemma operator_index_state (m : ElasticHashMap) (k : K) :
  state_after (operator_index m k) =
    match findSlot m k with
    | Some _ => m
    | None => state_after (insertOrUpdate m k V_default)
    end.
Proof.
  unfold operator_index. destruct (findSlot m k); [reflexivity |].
  destruct (insertOrUpdate m k V_default) as [[] m'|e m']; cbn;
    [|reflexivity].
  destruct (findSlot m' k); reflexivity.
Qed.

Lemma operator_index_good (m : ElasticHashMap) (k : K) :
  good m -> good (state_after (operator_index m k)).
Proof.
  intros Hg. rewrite operator_index_state.
  destruct (findSlot m k); [exact Hg | apply insertOrUpdate_good, Hg].
Qed.

Lemma operator_index_holds (m : ElasticHashMap) (k k' : K) (w : V) :
  good m -> holds m k w -> holds (state_after (operator_index m k')) k w.
Proof.
  intros Hg Hh. rewrite operator_index_state.
  destruct (findSlot m k') as [p'|] eqn:Ef; [exact Hh |].
  pose proof (insertOrUpdate_holds m k k' V_default w Hg Hh) as H.
  rewrite key_eqb_neq in H; [exact H |].
  intros ->. destruct Hh as (p & Hp & _). congruence.
Qed.

(** When [operator[]] returns, it returns what a lookup now finds. *)
Lemma operator_index_Ok (m : ElasticHashMap) (k : K) (p : nat * Z)
    (m' : ElasticHashMap) :
  operator_index m k = Ok p m' -> findSlot m' k = Some p.
Proof.
  unfold operator_index. destruct (findSlot m k) as [q|] eqn:Ef.
  - intros [= <- <-]. exact Ef.
  - destruct (insertOrUpdate m k V_default) as [[] m1|e m1]; [|discriminate].
    destruct (findSlot m1 k) as [q|] eqn:Ef1; [|discriminate].
    intros [= <- <-]. exact Ef1.
Qed.

Lemma exec_good (op : Op) (m : ElasticHashMap) :
  good m -> good (state_after (exec op m)).
Proof.
  intros Hg. destruct op as [k|k v|k|k v]; cbn [exec].
  - exact Hg.
  - apply insertOrUpdate_good, Hg.
  - pose proof (operator_index_good m k Hg) as H.
    destruct (operator_index m k); exact H.
  - pose proof (operator_index_good m k Hg) as H.
    destruct (operator_index m k) as [p m'|e m'] eqn:E; cbn in *; [|exact H].
    apply (store_value_good m' k); [exact H |].
    apply (operator_index_Ok m), E.
Qed.

Lemma exec_holds (op : Op) (m : ElasticHashMap) (k : K) (w : V) :
  good m -> holds m k w ->
  holds (state_after (exec op m)) k (last_written k w [op]).
Proof.
  intros Hg Hh. destruct op as [k'|k' v|k'|k' v]; cbn [exec last_written].
  - exact Hh.
  - apply insertOrUpdate_holds; assumption.
  - pose proof (operator_index_holds m k k' w Hg Hh) as H.
    destruct (operator_index m k'); exact H.
  - pose proof (operator_index_holds m k k' w Hg Hh) as H.
    pose proof (operator_index_good m k' Hg) as Hg'.
    destruct (operator_index m k') as [p m'|e m'] eqn:E; cbn in *.
    + apply store_value_holds; [exact Hg' | | exact H].
      apply (operator_index_Ok m), E.
    + destruct (key_eqb k' k) eqn:Ek; [|exact H].
      exfalso. apply key_eqb_eq in Ek. subst k'.
      unfold operator_index in E. destruct Hh as (p & Hp & _).
      rewrite Hp in E. discriminate.
Qed.

Lemma run_catch_good (ops : list Op) :
  forall m, good m -> good (run_catch ops m).
Proof.
  induction ops as [|op ops IH]; intros m Hg; cbn [run_catch]; [exact Hg |].
  apply IH, exec_good, Hg.
Qed.

Lemma run_catch_holds (ops : list Op) (k : K) :
  forall m w, good m -> holds m k w ->
    holds (run_catch ops m) k (last_written k w ops).
Proof.
  induction ops as [|op ops IH]; intros m w Hg Hh; cbn [run_catch];
    [exact Hh |].
  pose proof (exec_holds op m k w Hg Hh) as H.
  replace (last_written k w (op :: ops))
    with (last_written k (last_written k w [op]) ops)
    by (destruct op; reflexivity).
  apply IH; [apply exec_good, Hg | exact H].
Qed.

Lemma ctor_good (n : Z) (m : ElasticHashMap) :
  n < size_t_modulus -> ElasticHashMap_ctor n = Some m -> good m.
Proof.
  intros Hn Hm. split; [apply (ctor_wf n); assumption |].
  destruct (ctor_subarrays n m Hm) as (caps & Hs & _).
  intros i idx k (sub & Hi & _ & Ho & _). exfalso.
  rewrite Hs, list_lookup_fmap in Hi.
  destruct (caps !! i) as [c|]; [|discriminate]. cbn in Hi.
  injection Hi as <-. rewrite newSubarray_empty in Ho. discriminate.
Qed.


(** ** Uniqueness, persistence, idempotence *)

(** C10. In any state reached from a freshly constructed map by any
    sequence of calls, a key is stored in at most one slot: two places that
    hold the same key are the same place. *)
Theorem key_stored_at_most_once (n : Z) (m0 : ElasticHashMap)
    (ops : list Op) (k : K) (i j : nat) (idx jdx : Z) :
  n < size_t_modulus ->
  ElasticHashMap_ctor n = Some m0 ->
  stored (run_catch ops m0) i idx k ->
  stored (run_catch ops m0) j jdx k ->
  (i, idx) = (j, jdx).
Proof.
  intros Hn Hm0 H1 H2.
  destruct (run_catch_good ops m0 (ctor_good n m0 Hn Hm0)) as [_ Hf].
  apply Hf in H1, H2. congruence.
Qed.

Lemma holds_lookup (m : ElasticHashMap) (k : K) (w : V) :
  holds m k w ->
  count m k = true /\ lookup_value m k = Some w /\
  exists p, findSlot m k = Some p /\ operator_index m k = Ok p m /\
            value (slot_of m p) = w.
Proof.
  intros (p & Hp & Hval). unfold count, lookup_value, operator_index.
  rewrite Hp. cbn. rewrite Hval. repeat split. exists p. auto.
Qed.

(** C3. Once [insertOrUpdate] has returned normally for a key [k] in a
    state reached from a constructed map, then after any further sequence
    of calls [count k] is true and a lookup of [k], by [findSlot] or by
    [operator[]] (which then inserts nothing), yields the value most
    recently written for [k]. *)
Theorem no_loss_after_insert (n : Z) (m0 m1 : ElasticHashMap)
    (ops1 ops2 : list Op) (k : K) (v : V) :
  n < size_t_modulus ->
  ElasticHashMap_ctor n = Some m0 ->
  insertOrUpdate (run_catch ops1 m0) k v = Ok tt m1 ->
  count (run_catch ops2 m1) k = true /\
  lookup_value (run_catch ops2 m1) k = Some (last_written k v ops2) /\
  exists p, findSlot (run_catch ops2 m1) k = Some p /\
            operator_index (run_catch ops2 m1) k
              = Ok p (run_catch ops2 m1) /\
            value (slot_of (run_catch ops2 m1) p) = last_written k v ops2.
Proof.
  intros Hn Hm0 Hput.
  pose proof (run_catch_good ops1 m0 (ctor_good n m0 Hn Hm0)) as Hg.
  pose proof (insertOrUpdate_good _ k v Hg) as Hg1. rewrite Hput in Hg1.
  pose proof (insertOrUpdate_Ok_holds _ k v m1 (proj1 Hg) Hput) as Hh.
  apply holds_lookup, run_catch_holds; assumption.
Qed.

Lemma write_value_twice (sub : Subarray) (idx : Z) (v : V) :
  0 <= idx ->
  write_value (write_value sub idx v) idx v = write_value sub idx v.
Proof.
  intros Hidx. unfold write_value at 1. cbn [slots size capacity write_value].
  rewrite list_insert_insert_eq. f_equal. f_equal.
  rewrite slot_at_write_value by lia.
  destruct (decide _); reflexivity.
Qed.

Lemma write_value_placed (sub : Subarray) (idx : Z) (k : K) (v : V) :
  Z.of_nat (length (slots sub)) = capacity sub -> 0 <= idx < capacity sub ->
  write_value (place sub idx k v) idx v = place sub idx k v.
Proof.
  intros Hlen Hidx. unfold write_value.
  rewrite slot_at_place_same by assumption.
  unfold place. cbn. rewrite list_insert_insert_eq. reflexivity.
Qed.

(** C4. From any well-formed map, calling [insertOrUpdate k v] a second
    time right after the first has the outcome of the first: the same
    result and the very same map, so no region's [size] has grown; and when
    the calls return normally a lookup of [k] yields [v]. *)
Theorem put_is_idempotent (m : ElasticHashMap) (k : K) (v : V) :
  wf_map m ->
  insertOrUpdate (state_after (insertOrUpdate m k v)) k v
    = insertOrUpdate m k v /\
  (forall m1, insertOrUpdate m k v = Ok tt m1 ->
     lookup_value m1 k = Some v /\
     size <$> subarrays (state_after (insertOrUpdate m1 k v))
       = size <$> subarrays m1).
Proof.
  intros Hwf.
  assert (Hsame : insertOrUpdate (state_after (insertOrUpdate m k v)) k v
                  = insertOrUpdate m k v).
  { destruct (insertOrUpdate m k v) as [[] m1|e m1] eqn:E; cbn.
    - pose proof (insertOrUpdate_Ok_holds m k v m1 Hwf E) as (p & Hp & Hval).
      unfold insertOrUpdate in E |- *. rewrite tryUpdate_spec in E |- *.
      rewrite Hp. cbn. f_equal.
      destruct (findSlot m k) as [q|] eqn:Ef; cbn in E.
      + injection E as <-.
        rewrite (store_value_findSlot m k k q v Hwf Ef) in Hp.
        assert (q = p) as -> by congruence.
        destruct (findSlot_sound _ _ _ Hwf Ef) as (sub & _ & Hr & _).
        unfold store_value. cbn. f_equal. rewrite list_alter_alter_eq.
        apply list_alter_ext; [|reflexivity].
        intros s _. cbn. apply write_value_twice. lia.
      + destruct (doInsert_fresh m k v m1 Hwf Ef E)
          as (i & sub & idx & [Hi Hm1] & Hr & Ho & Hfind).
        assert (p = (i, idx)) as -> by congruence.
        pose proof (Forall_lookup_1 _ _ _ _ Hwf Hi) as [Hlen _ _].
        unfold store_value. cbn [fst snd].
        rewrite <- (mkMap_eta m1) at 2. f_equal. rewrite Hm1.
        rewrite (alter_as_insert _ _ i (place sub idx k v))
          by (apply list_lookup_insert_eq; apply lookup_lt_Some in Hi;
              exact Hi).
        rewrite write_value_placed by assumption.
        apply list_insert_insert_eq.
    - apply insertOrUpdate_Throw in E as E'.
      destruct E' as (-> & _ & _). exact E. }
  split; [exact Hsame |].
  intros m1 E. rewrite E in Hsame. cbn in Hsame. rewrite Hsame. cbn.
  split; [|reflexivity].
  apply holds_lookup, (insertOrUpdate_Ok_holds m); assumption.
Qed.

End LawfulKeys.


(** ** More on the constructor *)

(** In a region without occupied slots a lookup stops at its first probe. *)
Lemma findSlot_in_empty (sub : Subarray) (k : K) :
  (forall idx, occupied (slot_at sub idx) = false) ->
  (findSlot_in sub k).1 = None.
Proof.
  intros Hempty. unfold findSlot_in.
  destruct (Z.to_nat (maxProbesOf (capacity sub))) as [|n];
    cbn [findSlot_probe]; [reflexivity |].
  rewrite Hempty. reflexivity.
Qed.

Lemma ctor_findSlot_None (n : Z) (m : ElasticHashMap) (k : K) :
  ElasticHashMap_ctor n = Some m -> findSlot m k = None.
Proof.
  intros Hm. destruct (ctor_subarrays n m Hm) as (caps & Hs & _).
  unfold findSlot. apply findSlot_subs_None. rewrite Hs.
  apply Forall_fmap, Forall_forall. intros c _. cbn.
  apply findSlot_in_empty. intros idx. apply newSubarray_empty.
Qed.

(** X1. A freshly constructed map holds nothing: every region has [size] 0 and
    no occupied slot, and [count] is false for every key. *)
Theorem ctor_map_is_empty (n : Z) (m : ElasticHashMap) (k : K) :
  ElasticHashMap_ctor n = Some m ->
  count m k = false /\ lookup_value m k = None /\
  Forall (fun sub => size sub = 0 /\ occupiedCount (slots sub) = 0)
         (subarrays m).
Proof.
  intros Hm. unfold count, lookup_value.
  rewrite (ctor_findSlot_None n m k Hm). repeat split.
  destruct (ctor_subarrays n m Hm) as (caps & Hs & _). rewrite Hs.
  apply Forall_fmap, Forall_forall. intros c _. cbn.
  split; [reflexivity | apply occupiedCount_replicate].
Qed.

(** The sizing loop started with at least four slots to hand out: every
    region but the last takes half of what remains (at least two slots),
    these halves never increase, and the last region takes the two or three
    slots left. *)
Lemma allocate_shape (f : nat) :
  forall r l, 4 <= r -> allocate f r = Some l ->
    exists front last,
      l = (r / 2 :: front) ++ [last] /\
      sorted_desc (r / 2 :: front) = true /\
      Forall (fun c => 2 <= c <= r / 2) (r / 2 :: front) /\
      2 <= last <= 3.
Proof.
  induction f as [|f IH]; intros r l Hr; cbn [allocate].
  { destruct (0 <? r) eqn:E; [discriminate |]. apply Z.ltb_ge in E. lia. }
  assert (Hdiv : 2 * (r / 2) <= r < 2 * (r / 2) + 2).
  { pose proof (Z.div_mod r 2 ltac:(lia)).
    pose proof (Z.mod_pos_bound r 2 ltac:(lia)). lia. }
  replace (0 <? r) with true by (symmetry; apply Z.ltb_lt; lia).
  replace (r <? 4) with false by (symmetry; apply Z.ltb_ge; lia).
  rewrite andb_false_r. replace (Z.max 1 (r / 2)) with (r / 2) by lia.
  destruct (allocate f (r - r / 2)) as [l'|] eqn:El; [|discriminate].
  cbn. intros [= <-].
  destruct (Z_lt_le_dec (r - r / 2) 4) as [Hsmall|Hbig].
  - (* two or three slots remain: they form the last region *)
    exists [], (r - r / 2). destruct f as [|f]; cbn [allocate] in El.
    { replace (0 <? r - r / 2) with true in El
        by (symmetry; apply Z.ltb_lt; lia). discriminate. }
    replace (0 <? r - r / 2) with true in El
      by (symmetry; apply Z.ltb_lt; lia).
    replace (r - r / 2 <? 4) with true in El
      by (symmetry; apply Z.ltb_lt; lia).
    replace (Z.max 1 ((r - r / 2) / 2) <? 4) with true in El.
    2:{ symmetry. apply Z.ltb_lt.
        assert ((r - r / 2) / 2 < 4)
          by (apply Z.div_lt_upper_bound; lia). lia. }
    cbn [andb] in El. rewrite Z.sub_diag in El.
    assert (allocate f 0 = Some []) as Hzero by (destruct f; reflexivity).
    rewrite Hzero in El. cbn in El. injection El as <-.
    repeat split; try reflexivity; try lia.
    repeat constructor; lia.
  - destruct (IH _ _ Hbig El) as (front & last & -> & Hsorted & Hall & Hlast).
    exists ((r - r / 2) / 2 :: front), last.
    assert (Hle : (r - r / 2) / 2 <= r / 2).
    { apply Z.div_le_mono; lia. }
    repeat split; try lia.
    + cbn [sorted_desc] in Hsorted |- *.
      replace ((r - r / 2) / 2 <=? r / 2) with true
        by (symmetry; apply Z.leb_le; exact Hle).
      exact Hsorted.
    + constructor; [lia |].
      eapply Forall_impl; [| exact Hall]. cbn. intros; lia.
Qed.

Lemma region_sizes_effective (n : Z) :
  region_sizes n = allocate (loop_bound (Z.max n 8)) (Z.max n 8).
Proof.
  unfold region_sizes. destruct (n <? 8) eqn:E;
    rewrite ?Z.ltb_lt, ?Z.ltb_ge in E.
  - replace (Z.max n 8) with 8 by lia. reflexivity.
  - replace (Z.max n 8) with n by lia. reflexivity.
Qed.

Lemma ctor_capacities (n : Z) (m : ElasticHashMap) :
  ElasticHashMap_ctor n = Some m -> region_sizes n = Some (capacities m).
Proof.
  unfold ElasticHashMap_ctor. destruct (region_sizes n) as [l|]; [|discriminate].
  cbn. intros [= <-]. rewrite capacities_new. reflexivity.
Qed.

(** X2. The layout the constructor builds: the first region has half of the
    effective capacity, every region but the last has at least two slots
    and these regions are in non-increasing order, and the last region has
    two or three slots (so it exceeds its predecessor by at most one). *)
Theorem ctor_layout (n : Z) (m : ElasticHashMap) :
  ElasticHashMap_ctor n = Some m ->
  exists front last,
    capacities m = (Z.max n 8 / 2 :: front) ++ [last] /\
    sorted_desc (Z.max n 8 / 2 :: front) = true /\
    Forall (fun c => 2 <= c <= Z.max n 8 / 2) (Z.max n 8 / 2 :: front) /\
    2 <= last <= 3.
Proof.
  intros Hm. apply ctor_capacities in Hm. rewrite region_sizes_effective in Hm.
  apply (allocate_shape _ (Z.max n 8) _ ltac:(lia) Hm).
Qed.


(** One turn of the sizing loop with slots left to hand out. *)
Lemma allocate_step (f : nat) (r : Z) (l : list Z) :
  0 < r -> allocate f r = Some l ->
  exists f' l',
    f = S f' /\ l = (if r <? 4 then r else r / 2) :: l' /\
    allocate f' (r - (if r <? 4 then r else r / 2)) = Some l'.
Proof.
  intros Hr. destruct f as [|f]; cbn [allocate];
    replace (0 <? r) with true by (symmetry; apply Z.ltb_lt; lia);
    [discriminate |].
  assert (Hdiv : 2 * (r / 2) <= r < 2 * (r / 2) + 2).
  { pose proof (Z.div_mod r 2 ltac:(lia)).
    pose proof (Z.mod_pos_bound r 2 ltac:(lia)). lia. }
  destruct (r <? 4) eqn:E4; rewrite ?Z.ltb_lt, ?Z.ltb_ge in E4.
  - replace (Z.max 1 (r / 2) <? 4) with true
      by (symmetry; apply Z.ltb_lt; lia).
    cbn [andb]. destruct (allocate f (r - r)) as [l'|] eqn:El; [|discriminate].
    cbn. intros [= <-]. eauto.
  - rewrite andb_false_r. replace (Z.max 1 (r / 2)) with (r / 2) by lia.
    destruct (allocate f (r - r / 2)) as [l'|] eqn:El; [|discriminate].
    cbn. intros [= <-]. eauto.
Qed.

Lemma allocate_length_upper (g : nat) :
  forall f r l, 2 <= r <= 2 ^ Z.of_nat g -> allocate f r = Some l ->
    (length l <= g)%nat.
Proof.
  induction g as [|g IH]; intros f r l Hr Hl.
  { change (2 ^ Z.of_nat 0) with 1 in Hr. lia. }
  destruct (allocate_step f r l ltac:(lia) Hl) as (f' & l' & -> & -> & Hl').
  destruct (r <? 4) eqn:E4; rewrite ?Z.ltb_lt, ?Z.ltb_ge in E4.
  - rewrite Z.sub_diag in Hl'.
    assert (l' = []) as ->
      by (destruct f'; cbn in Hl'; congruence).
    cbn. lia.
  - assert (Hdiv : 2 * (r / 2) <= r < 2 * (r / 2) + 2).
    { pose proof (Z.div_mod r 2 ltac:(lia)).
      pose proof (Z.mod_pos_bound r 2 ltac:(lia)). lia. }
    assert (Hpow : 2 ^ Z.of_nat (S g) = 2 * 2 ^ Z.of_nat g).
    { rewrite Nat2Z.inj_succ, Z.pow_succ_r; lia. }
    cbn [length]. apply le_n_S. apply (IH f' (r - r / 2)); [lia | exact Hl'].
Qed.

Lemma allocate_length_lower (j : nat) :
  forall f r l, 2 ^ Z.of_nat (S j) <= r -> allocate f r = Some l ->
    (S j <= length l)%nat.
Proof.
  induction j as [|j IH]; intros f r l Hr Hl.
  - change (2 ^ Z.of_nat 1) with 2 in Hr.
    destruct (allocate_step f r l ltac:(lia) Hl) as (f' & l' & _ & -> & _).
    cbn. lia.
  - assert (Hpow : 2 ^ Z.of_nat (S (S j)) = 2 * 2 ^ Z.of_nat (S j)).
    { rewrite (Nat2Z.inj_succ (S j)), Z.pow_succ_r; lia. }
    assert (Hge : 2 <= 2 ^ Z.of_nat (S j)).
    { rewrite Nat2Z.inj_succ, Z.pow_succ_r by lia.
      assert (0 < 2 ^ Z.of_nat j) by (apply Z.pow_pos_nonneg; lia). lia. }
    destruct (allocate_step f r l ltac:(lia) Hl) as (f' & l' & -> & -> & Hl').
    replace (r <? 4) with false in Hl' |- * by (symmetry; apply Z.ltb_ge; lia).
    assert (Hdiv : 2 * (r / 2) <= r < 2 * (r / 2) + 2).
    { pose proof (Z.div_mod r 2 ltac:(lia)).
      pose proof (Z.mod_pos_bound r 2 ltac:(lia)). lia. }
    cbn [length]. apply le_n_S. apply (IH f' (r - r / 2)); [lia | exact Hl'].
Qed.

(** X3. The constructor creates about [log2] of the effective capacity many
    regions: at least the rounded-down and at most the rounded-up binary
    logarithm of [max n 8], hence never fewer than three. *)
Theorem ctor_region_count (n : Z) (m : ElasticHashMap) :
  ElasticHashMap_ctor n = Some m ->
  (3 <= length (subarrays m))%nat /\
  (Z.to_nat (Z.log2 (Z.max n 8)) <= length (subarrays m))%nat /\
  (length (subarrays m) <= Z.to_nat (Z.log2_up (Z.max n 8)))%nat.
Proof.
  intros Hm. apply ctor_capacities in Hm. rewrite region_sizes_effective in Hm.
  replace (length (subarrays m)) with (length (capacities m))
    by (unfold capacities; apply length_fmap).
  assert (Hlog : 3 <= Z.log2 (Z.max n 8)).
  { change 3 with (Z.log2 8). apply Z.log2_le_mono. lia. }
  assert (Hlow : (Z.to_nat (Z.log2 (Z.max n 8)) <= length (capacities m))%nat).
  { destruct (Z.to_nat (Z.log2 (Z.max n 8))) as [|j] eqn:Ej; [lia |].
    apply (allocate_length_lower j (loop_bound (Z.max n 8)) (Z.max n 8));
      [|exact Hm].
    rewrite <- Ej, Z2Nat.id by lia.
    apply (Z.log2_spec (Z.max n 8)). lia. }
  split; [lia |]. split; [exact Hlow |].
  apply (allocate_length_upper _ (loop_bound (Z.max n 8)) (Z.max n 8));
    [|exact Hm].
  rewrite Z2Nat.id by apply Z.log2_up_nonneg.
  split; [lia |]. apply (Z.log2_up_spec (Z.max n 8)). lia.
Qed.


(** ** [tryUpdate] against [findSlot] *)

(** X4. [tryUpdate] returns exactly what [count] answers. When that is false
    the map is untouched; when it is true (in a well-formed map) the only
    effect is that a lookup of the key now yields the new value: no [size]
    changes. *)
Theorem tryUpdate_agrees_with_findSlot (m : ElasticHashMap) (k : K) (v : V) :
  (tryUpdate m k v).1 = count m k /\
  (count m k = false -> (tryUpdate m k v).2 = m) /\
  (wf_map m -> count m k = true ->
     lookup_value (tryUpdate m k v).2 k = Some v /\
     size <$> subarrays (tryUpdate m k v).2 = size <$> subarrays m /\
     capacities (tryUpdate m k v).2 = capacities m).
Proof.
  rewrite tryUpdate_spec. unfold count.
  destruct (findSlot m k) as [p|] eqn:Ef; cbn [fst snd].
  - split; [reflexivity |]. split; [discriminate |]. intros Hwf _.
    destruct (store_value_self m k p v Hwf Ef) as (q & Hq & Hval).
    split; [unfold lookup_value; rewrite Hq; cbn; rewrite Hval; reflexivity |].
    destruct (findSlot_sound _ _ _ Hwf Ef) as (sub & Hi & _).
    destruct (store_value_updates m p v sub Hi) as [_ Hm'].
    unfold capacities. rewrite Hm', !list_fmap_insert. cbn.
    split; apply list_insert_id; rewrite list_lookup_fmap, Hi; reflexivity.
  - split; [reflexivity |]. split; [reflexivity | discriminate].
Qed.

(** ** When [doInsert] gives up *)

Lemma doInsert_probe_None (sub : Subarray) (k : K) (v : V) (h : Z) :
  forall n p,
    (doInsert_probe sub k v h n p).1 = None <->
    forallb (fun idx => occupied (slot_at sub idx)
                        && negb (key_eqb (key (slot_at sub idx)) k))
            ((fun q => probe_index h q (capacity sub))
               <$> seqZ p (Z.of_nat n)) = true.
Proof.
  induction n as [|n IH]; intros p.
  - cbn. split; reflexivity.
  - rewrite (seqZ_cons p) by lia. cbn [fmap list_fmap forallb doInsert_probe].
    replace (Z.pred (Z.of_nat (S n))) with (Z.of_nat n) by lia.
    replace (Z.succ p) with (p + 1) by lia.
    destruct (occupied (slot_at sub _)); cbn [negb andb];
      [|split; discriminate].
    destruct (key_eqb _ k); cbn [negb]; [split; discriminate |].
    apply IH.
Qed.

Lemma doInsert_in_None (sub : Subarray) (k : K) (v : V) :
  (doInsert_in sub k v).1 = None <-> probe_blocked sub k = true.
Proof.
  unfold doInsert_in, probe_blocked, probe_sequence.
  rewrite <- seqZ_budget. apply doInsert_probe_None.
Qed.

Lemma doInsert_subs_placed (subs : list Subarray) (k : K) (v : V) :
  placed (doInsert_subs subs k v)
    = negb (forallb (fun sub => rejects sub k) subs).
Proof.
  induction subs as [|sub rest IH]; cbn [doInsert_subs forallb];
    [reflexivity |].
  unfold rejects at 1. destruct (eligible sub); cbn [negb orb].
  - destruct ((doInsert_in sub k v).1) as [sub'|] eqn:E; cbn.
    + destruct (probe_blocked sub k) eqn:Eb; [|reflexivity].
      apply (doInsert_in_None sub k v) in Eb. congruence.
    + apply doInsert_in_None in E. rewrite E. exact IH.
  - cbn. exact IH.
Qed.

(** X5. [doInsert] throws exactly when every region either fails the admission
    test or has its whole probe sequence for the key occupied by other
    keys; [insertOrUpdate] throws exactly when, in addition, the key is not
    found. In both cases the map is the one before the call. *)
Theorem insertion_fails_iff_all_regions_reject (m : ElasticHashMap) (k : K)
    (v : V) :
  (doInsert m k v = Throw CapacityExhausted m <->
   forallb (fun sub => rejects sub k) (subarrays m) = true) /\
  (insertOrUpdate m k v = Throw CapacityExhausted m <->
   count m k = false /\
   forallb (fun sub => rejects sub k) (subarrays m) = true).
Proof.
  assert (Hd : doInsert m k v = Throw CapacityExhausted m <->
               forallb (fun sub => rejects sub k) (subarrays m) = true).
  { unfold doInsert. rewrite doInsert_subs_placed.
    destruct (forallb (fun sub => rejects sub k) (subarrays m)) eqn:E; cbn.
    - split; [reflexivity |]. intros _.
      destruct (doInsert_subs_spec (subarrays m) k v) as [[_ Ha]|[Hp _]].
      + rewrite Ha, mkMap_eta. reflexivity.
      + rewrite doInsert_subs_placed, E in Hp. discriminate.
    - split; discriminate. }
  split; [exact Hd |].
  unfold insertOrUpdate, count. rewrite tryUpdate_spec.
  destruct (findSlot m k) as [p|]; cbn [fst snd].
  - split; [discriminate | intros [? _]; discriminate].
  - rewrite Hd. split; [auto | intros [_ H]; exact H].
Qed.

(** ** Entries are never moved or removed *)

Lemma updates_keeps_stored (m m' : ElasticHashMap) (i : nat)
    (sub sub' : Subarray) :
  updates_region m m' i sub sub' ->
  capacity sub' = capacity sub ->
  (forall j, 0 <= j < capacity sub -> occupied (slot_at sub j) = true ->
             occupied (slot_at sub' j) = true /\
             key (slot_at sub' j) = key (slot_at sub j)) ->
  forall a idx k, stored m a idx k -> stored m' a idx k.
Proof.
  intros [Hi Hm'] Hcap Hkeep a idx k (s & Hs & Hr & Ho & Hk).
  unfold stored. rewrite Hm'. destruct (decide (a = i)) as [->|Hne].
  - rewrite Hi in Hs. injection Hs as <-. exists sub'.
    rewrite list_lookup_insert_eq by (apply lookup_lt_Some in Hi; exact Hi).
    destruct (Hkeep idx Hr Ho) as [Ho' Hk'].
    repeat split; try lia; congruence.
  - exists s. rewrite list_lookup_insert_ne by congruence. auto.
Qed.

Lemma write_keeps_stored (m m' : ElasticHashMap) (i : nat) (sub : Subarray)
    (idx : Z) (v : V) :
  updates_region m m' i sub (write_value sub idx v) -> 0 <= idx ->
  forall a j k, stored m a j k -> stored m' a j k.
Proof.
  intros Hu Hidx. apply (updates_keeps_stored _ _ _ _ _ Hu); [reflexivity |].
  intros j Hj Ho. destruct (write_value_same_keys sub idx v Hidx) as [_ Hsk].
  destruct (Hsk j Hj) as [-> ->]. auto.
Qed.

Lemma place_keeps_stored (m m' : ElasticHashMap) (i : nat) (sub : Subarray)
    (idx : Z) (k0 : K) (v : V) :
  updates_region m m' i sub (place sub idx k0 v) -> 0 <= idx ->
  occupied (slot_at sub idx) = false ->
  forall a j k, stored m a j k -> stored m' a j k.
Proof.
  intros Hu Hidx Hocc. apply (updates_keeps_stored _ _ _ _ _ Hu); [reflexivity |].
  intros j Hj Ho. rewrite slot_at_place_other by (try lia; congruence). auto.
Qed.

Lemma store_value_keeps (m : ElasticHashMap) (k : K) (p : nat * Z) (v : V) :
  wf_map m -> findSlot m k = Some p ->
  forall a j k', stored m a j k' -> stored (store_value m p v) a j k'.
Proof.
  intros Hwf Hp. destruct (findSlot_sound _ _ _ Hwf Hp) as (sub & Hi & Hr & _).
  apply (write_keeps_stored _ _ _ _ _ _ (store_value_updates m p v sub Hi)). lia.
Qed.

Lemma insertOrUpdate_keeps (m : ElasticHashMap) (k : K) (v : V) :
  wf_map m ->
  forall a j k', stored m a j k' ->
                 stored (state_after (insertOrUpdate m k v)) a j k'.
Proof.
  intros Hwf. unfold insertOrUpdate. rewrite tryUpdate_spec.
  destruct (findSlot m k) as [p|] eqn:Ef; cbn [fst snd].
  - cbn. apply (store_value_keeps m k); assumption.
  - destruct (doInsert m k v) as [[] m'|e m'] eqn:E; cbn.
    + destruct (doInsert_Ok _ _ _ _ Hwf E)
        as (i & sub & idx & Hi & _ & Hr & Hcase & _).
      destruct Hcase as [(Ho & _ & Hu)|(Ho & Hu)].
      * apply (place_keeps_stored _ _ _ _ _ _ _ Hu); [lia | exact Ho].
      * apply (write_keeps_stored _ _ _ _ _ _ Hu). lia.
    + apply doInsert_Throw in E as [-> _]. auto.
Qed.

Lemma exec_keeps (op : Op) (m : ElasticHashMap) :
  wf_map m ->
  forall a j k, stored m a j k -> stored (state_after (exec op m)) a j k.
Proof.
  intros Hwf a j k Hst.
  assert (Hidx : forall k', stored (state_after (operator_index m k')) a j k).
  { intros k'. rewrite operator_index_state.
    destruct (findSlot m k'); [exact Hst |].
    apply insertOrUpdate_keeps; assumption. }
  destruct op as [k'|k' v|k'|k' v]; cbn [exec].
  - exact Hst.
  - apply insertOrUpdate_keeps; assumption.
  - specialize (Hidx k'). destruct (operator_index m k'); exact Hidx.
  - specialize (Hidx k'). pose proof (operator_index_grows m k' Hwf) as [Hwf' _].
    destruct (operator_index m k') as [p m'|e m'] eqn:E; cbn in *;
      [|exact Hidx].
    apply (store_value_keeps m' k'); [exact Hwf' | | exact Hidx].
    apply (operator_index_Ok m), E.
Qed.

(** X6. A slot that holds a key keeps holding that key, in the same region at
    the same index, through every later call: nothing is moved, removed or
    overwritten by another key. *)
Theorem entries_never_move (m : ElasticHashMap) (ops : list Op)
    (i : nat) (idx : Z) (k : K) :
  wf_map m -> stored m i idx k -> stored (run_catch ops m) i idx k.
Proof.
  revert m. induction ops as [|op ops IH]; intros m Hwf Hst;
    cbn [run_catch]; [exact Hst |].
  apply IH; [apply (exec_grows op m Hwf) | apply exec_keeps; assumption].
Qed.

(** ** Probes stay inside the slot vector *)

Lemma in_probe_sequence_range (h c idx : Z) :
  0 < c -> idx ∈ probe_sequence h c -> 0 <= idx < c.
Proof.
  intros Hc Hin. unfold probe_sequence in Hin.
  apply list_elem_of_fmap in Hin as (q & -> & _).
  apply probe_index_range, Hc.
Qed.

Lemma in_prefix {A} (l1 l2 : list A) (x : A) :
  l1 `prefix_of` l2 -> x ∈ l1 -> x ∈ l2.
Proof. intros [l ->] Hx. apply elem_of_app. left. exact Hx. Qed.

(** X7. In a well-formed region every index read by the walks of [findSlot],
    [tryUpdate] and [doInsert] addresses an existing slot of the vector. *)
Theorem probes_stay_in_bounds (sub : Subarray) (k : K) (v : V) (idx : Z) :
  wf_sub sub ->
  idx ∈ (findSlot_in sub k).2 ++ (tryUpdate_in sub k v).2
          ++ (doInsert_in sub k v).2 ->
  0 <= idx /\ (Z.to_nat idx < length (slots sub))%nat /\
  slots sub !! Z.to_nat idx = Some (slot_at sub idx).
Proof.
  intros Hwf Hin.
  assert (Hseq : idx ∈ probe_sequence (hashOf k) (capacity sub)).
  { rewrite tryUpdate_in_find in Hin. cbn [snd] in Hin.
    rewrite !elem_of_app in Hin.
    assert (Hf : (findSlot_in sub k).2
                   `prefix_of` probe_sequence (hashOf k) (capacity sub)).
    { unfold findSlot_in, probe_sequence. rewrite <- seqZ_budget.
      apply findSlot_probe_trace. }
    assert (Hd : (doInsert_in sub k v).2
                   `prefix_of` probe_sequence (hashOf k) (capacity sub)).
    { unfold doInsert_in, probe_sequence. rewrite <- seqZ_budget.
      apply doInsert_probe_trace. }
    destruct Hin as [H|[H|H]]; eauto using in_prefix. }
  destruct Hwf as [Hlen Hsz Hcap].
  apply in_probe_sequence_range in Hseq; [|lia].
  split; [lia |]. split; [lia |]. apply in_range_lookup; assumption.
Qed.

(** ** Occupancy against capacity *)

Lemma sizes_within_capacities (subs : list Subarray) :
  Forall wf_sub subs ->
  0 <= sumZ (size <$> subs) <= sumZ (capacity <$> subs).
Proof.
  induction 1 as [|sub subs Hsub _ IH]; unfold sumZ in *; cbn; [lia |].
  pose proof (wf_sub_size_le sub Hsub). lia.
Qed.

(** X8. A map constructed for [n] entries never records more than [max n 8]
    of them, whatever calls are made. *)
Theorem entries_bounded_by_capacity (n : Z) (m0 : ElasticHashMap)
    (ops : list Op) :
  n < size_t_modulus ->
  ElasticHashMap_ctor n = Some m0 ->
  0 <= total_size (run_catch ops m0) <= Z.max n 8.
Proof.
  intros Hn Hm0. pose proof (ctor_wf n m0 Hn Hm0) as Hwf0.
  destruct (run_catch_grows ops m0 Hwf0) as [Hwf Hg].
  pose proof (sizes_within_capacities _ Hwf) as Hle.
  rewrite (regions_grow_capacities _ _ Hg) in Hle.
  destruct (region_sizes_total n) as (l & Hl & Hsum & _).
  rewrite (ctor_capacities n m0 Hm0) in Hl. injection Hl as <-.
  unfold total_size, capacities in *. lia.
Qed.

(** X9. Once a region fails the admission test it fails it for good (its
    [size] never shrinks), so [doInsert] will never again place a key
    there. *)
Theorem saturated_region_stays_saturated (m : ElasticHashMap)
    (ops : list Op) (i : nat) (sub : Subarray) :
  wf_map m -> subarrays m !! i = Some sub ->
  capacity sub * 10 < size_t_modulus -> eligible sub = false ->
  exists sub', subarrays (run_catch ops m) !! i = Some sub' /\
               capacity sub' = capacity sub /\ eligible sub' = false.
Proof.
  intros Hwf Hi Hcap Hel.
  destruct (run_catch_grows ops m Hwf) as [Hwf' Hg].
  destruct (Forall2_lookup_l _ _ _ _ _ Hg Hi) as (sub' & Hi' & Hc & Hs).
  exists sub'. split; [exact Hi' |]. split; [exact Hc |].
  pose proof (Forall_lookup_1 _ _ _ _ Hwf Hi) as Hsub.
  pose proof (Forall_lookup_1 _ _ _ _ Hwf' Hi') as Hsub'.
  destruct (eligible sub') eqn:E; [|reflexivity].
  apply eligible_below_threshold in E; [|exact Hsub' | lia].
  assert (below_threshold sub) as Hb
    by (unfold below_threshold in *; rewrite <- Hc; lia).
  apply eligible_below_threshold in Hb; [congruence | exact Hsub | exact Hcap].
Qed.


(** ** More consequences of a lawful key equality *)

Section LawfulClients.

Hypothesis key_eqb_eq : forall a b : K, key_eqb a b = true <-> a = b.

Lemma run_catch_keeps (ops : list Op) :
  forall m, wf_map m ->
    forall a j k, stored m a j k -> stored (run_catch ops m) a j k.
Proof.
  induction ops as [|op ops IH]; intros m Hwf a j k Hst; cbn [run_catch];
    [exact Hst |].
  apply IH; [apply (exec_grows op m Hwf) | apply exec_keeps; assumption].
Qed.

Lemma findSlot_stored (m : ElasticHashMap) (k : K) (p : nat * Z) :
  wf_map m -> findSlot m k = Some p -> stored m p.1 p.2 k.
Proof.
  intros Hwf Hp.
  destruct (findSlot_sound _ _ _ Hwf Hp) as (sub & Hi & Hr & Ho & Hk).
  apply key_eqb_eq in Hk. exists sub. auto.
Qed.

(** X10. The [Slot*] that [findSlot] returns for a key is the same in every
    later state, and the slot keeps holding that key: a reference obtained
    from [operator[]] stays valid across all later calls. *)
Theorem slot_pointer_is_stable (n : Z) (m0 : ElasticHashMap)
    (ops1 ops2 : list Op) (k : K) (p : nat * Z) :
  n < size_t_modulus ->
  ElasticHashMap_ctor n = Some m0 ->
  findSlot (run_catch ops1 m0) k = Some p ->
  findSlot (run_catch ops2 (run_catch ops1 m0)) k = Some p /\
  stored (run_catch ops2 (run_catch ops1 m0)) p.1 p.2 k.
Proof.
  intros Hn Hm0 Hp.
  pose proof (run_catch_good key_eqb_eq ops1 m0 (ctor_good n m0 Hn Hm0))
    as Hg.
  pose proof (run_catch_good key_eqb_eq ops2 _ Hg) as [_ Hf].
  pose proof (findSlot_stored _ _ _ (proj1 Hg) Hp) as Hst.
  apply (run_catch_keeps ops2 _ (proj1 Hg)) in Hst.
  split; [|exact Hst]. destruct p as [i idx]. apply Hf, Hst.
Qed.

(** *** Calls about one key leave the others alone *)

Lemma doInsert_fresh_other (m : ElasticHashMap) (k k' : K) (v : V)
    (m' : ElasticHashMap) :
  good m -> findSlot m k = None -> doInsert m k v = Ok tt m' -> k' <> k ->
  findSlot m' k' = findSlot m k'.
Proof.
  intros [Hwf Hf] Hnone Hd Hne.
  destruct (doInsert_fresh key_eqb_eq m k v m' Hwf Hnone Hd)
    as (i & sub & idx & Hu & Hr & Ho & _).
  pose proof (proj1 Hu) as Hi.
  pose proof (Forall_lookup_1 _ _ _ _ Hwf Hi) as [Hlen _ _].
  apply (updates_findSlot_ext _ _ _ _ _ _ Hu).
  apply (place_scan_other key_eqb_eq); try assumption.
  intros j Hj Hoj Hkj. apply (findable_scan m i); assumption.
Qed.

Lemma insertOrUpdate_findSlot_other (m : ElasticHashMap) (k k' : K) (v : V) :
  good m -> k' <> k ->
  findSlot (state_after (insertOrUpdate m k v)) k' = findSlot m k'.
Proof.
  intros Hg Hne. unfold insertOrUpdate. rewrite tryUpdate_spec.
  destruct (findSlot m k) as [p|] eqn:Ef; cbn [fst snd].
  - cbn. apply (store_value_findSlot m k); [apply Hg | exact Ef].
  - destruct (doInsert m k v) as [[] m'|e m'] eqn:E; cbn.
    + apply (doInsert_fresh_other m k k' v); assumption.
    + apply doInsert_Throw in E as [-> _]. reflexivity.
Qed.

Lemma exec_findSlot_other (op : Op) (m : ElasticHashMap) (k' : K) :
  good m -> k' <> op_key op ->
  findSlot (state_after (exec op m)) k' = findSlot m k'.
Proof.
  intros Hg Hne.
  assert (Hidx : forall k, k' <> k ->
            findSlot (state_after (operator_index m k)) k' = findSlot m k').
  { intros k Hk. rewrite operator_index_state.
    destruct (findSlot m k); [reflexivity |].
    apply insertOrUpdate_findSlot_other; assumption. }
  destruct op as [k|k v|k|k v]; cbn [exec op_key] in *.
  - reflexivity.
  - apply insertOrUpdate_findSlot_other; assumption.
  - specialize (Hidx k Hne). destruct (operator_index m k); exact Hidx.
  - specialize (Hidx k Hne).
    pose proof (operator_index_good key_eqb_eq m k Hg) as Hg'.
    destruct (operator_index m k) as [p m'|e m'] eqn:E;
      cbn [state_after] in *; [|exact Hidx].
    rewrite (store_value_findSlot m' k k' p v (proj1 Hg'));
      [exact Hidx | apply (operator_index_Ok m), E].
Qed.

(** X11. A call about one key changes nothing for any other key: in every state
    reached from a constructed map, whether the call returns or throws,
    [count] and the looked-up value of every other key are as before. In
    particular no other key appears or disappears. *)
Theorem other_keys_unaffected (n : Z) (m0 : ElasticHashMap) (ops : list Op)
    (op : Op) (k' : K) :
  n < size_t_modulus ->
  ElasticHashMap_ctor n = Some m0 ->
  k' <> op_key op ->
  count (state_after (exec op (run_catch ops m0))) k'
    = count (run_catch ops m0) k' /\
  lookup_value (state_after (exec op (run_catch ops m0))) k'
    = lookup_value (run_catch ops m0) k'.
Proof.
  intros Hn Hm0 Hne.
  pose proof (run_catch_good key_eqb_eq ops m0 (ctor_good n m0 Hn Hm0)) as Hg.
  pose proof (exec_findSlot_other op _ k' Hg Hne) as Hfs.
  unfold count, lookup_value. rewrite Hfs.
  split; [reflexivity |].
  destruct (findSlot (run_catch ops m0) k') as [p|] eqn:Ef; [|reflexivity].
  cbn. f_equal.
  assert (Hh : holds (run_catch ops m0) k' (value (slot_of (run_catch ops m0) p)))
    by (exists p; auto).
  apply (exec_holds key_eqb_eq op) in Hh; [|exact Hg].
  destruct Hh as (q & Hq & Hval). rewrite Hfs in Hq. injection Hq as ->.
  rewrite Hval.
  assert (Hk : key_eqb (op_key op) k' = false)
    by (apply (key_eqb_neq key_eqb_eq); congruence).
  destruct op; cbn [last_written op_key] in *; rewrite ?Hk; reflexivity.
Qed.

(** *** Size accounting *)

Lemma sumZ_insert (l : list Z) :
  forall i x y, l !! i = Some x -> sumZ (<[i := y]> l) = sumZ l - x + y.
Proof.
  unfold sumZ. induction l as [|a l IH]; intros i x y Hi; [discriminate |].
  destruct i as [|i]; simpl in *.
  - injection Hi as ->. lia.
  - rewrite (IH i x y Hi). lia.
Qed.

Lemma updates_total_size (m m' : ElasticHashMap) (i : nat)
    (sub sub' : Subarray) :
  updates_region m m' i sub sub' ->
  total_size m' = total_size m - size sub + size sub'.
Proof.
  intros [Hi Hm']. unfold total_size. rewrite Hm', list_fmap_insert.
  apply sumZ_insert. rewrite list_lookup_fmap, Hi. reflexivity.
Qed.

Lemma insertOrUpdate_Ok_size (m : ElasticHashMap) (k : K) (v : V)
    (m' : ElasticHashMap) :
  wf_map m -> insertOrUpdate m k v = Ok tt m' ->
  total_size m' = total_size m + (if count m k then 0 else 1).
Proof.
  intros Hwf. unfold insertOrUpdate, count. rewrite tryUpdate_spec.
  destruct (findSlot m k) as [p|] eqn:Ef; cbn [fst snd].
  - intros [= <-].
    destruct (findSlot_sound _ _ _ Hwf Ef) as (sub & Hi & _).
    rewrite (updates_total_size _ _ _ _ _ (store_value_updates m p v sub Hi)).
    cbn. lia.
  - intros Hd. destruct (doInsert_fresh key_eqb_eq m k v m' Hwf Ef Hd)
      as (i & sub & idx & Hu & Hr & Ho & _).
    pose proof (Forall_lookup_1 _ _ _ _ Hwf (proj1 Hu)) as Hsub.
    destruct (wf_sub_place sub idx k v Hsub Hr Ho) as [_ Hsz].
    rewrite (updates_total_size _ _ _ _ _ Hu), Hsz. lia.
Qed.

(** X12. A call of [insertOrUpdate] that returns normally adds exactly one entry
    when the key was absent and none when it was present; afterwards the
    key is present with the given value. The duplicate branch of [doInsert]
    is therefore never what makes the call return. *)
Theorem put_size_accounting (m : ElasticHashMap) (k : K) (v : V)
    (m' : ElasticHashMap) :
  wf_map m -> insertOrUpdate m k v = Ok tt m' ->
  total_size m' = total_size m + (if count m k then 0 else 1) /\
  count m' k = true /\ lookup_value m' k = Some v.
Proof.
  intros Hwf Hput.
  split; [apply (insertOrUpdate_Ok_size m k v); assumption |].
  destruct (holds_lookup m' k v
              (insertOrUpdate_Ok_holds key_eqb_eq m k v m' Hwf Hput))
    as (Hc & Hl & _).
  auto.
Qed.

(** *** [operator[]] *)

(** X13. With a lawful key equality the second lookup of [operator[]] cannot
    fail: the only exception [operator[]] lets out is [doInsert]'s, for a
    key that is absent, and then the map is untouched. *)
Theorem operator_index_only_fails_for_capacity (m : ElasticHashMap) (k : K)
    (e : exn) (m' : ElasticHashMap) :
  wf_map m -> operator_index m k = Throw e m' ->
  e = CapacityExhausted /\ m' = m /\ count m k = false.
Proof.
  intros Hwf. unfold operator_index, count.
  destruct (findSlot m k) as [p|] eqn:Ef; [discriminate |].
  destruct (insertOrUpdate m k V_default) as [[] m1|e1 m1] eqn:Ei.
  - destruct (insertOrUpdate_Ok_holds key_eqb_eq m k V_default m1 Hwf Ei)
      as (p & Hp & _).
    rewrite Hp. discriminate.
  - intros [= <- <-]. apply insertOrUpdate_Throw in Ei as (-> & -> & _). auto.
Qed.

(** X14. What [operator[]] returns: the place where the key is stored. For a
    key that was present the map is unchanged; for a key that was absent
    exactly one entry was added and its value is the default value. *)
Theorem operator_index_returns_entry (m : ElasticHashMap) (k : K)
    (p : nat * Z) (m' : ElasticHashMap) :
  wf_map m -> operator_index m k = Ok p m' ->
  findSlot m' k = Some p /\ stored m' p.1 p.2 k /\
  (count m k = true -> m' = m) /\
  (count m k = false ->
     value (slot_of m' p) = V_default /\ total_size m' = total_size m + 1).
Proof.
  intros Hwf Hidx.
  pose proof (operator_index_Ok m k p m' Hidx) as Hp.
  pose proof (operator_index_grows m k Hwf) as [Hwf' _].
  rewrite Hidx in Hwf'. cbn in Hwf'.
  split; [exact Hp |]. split; [apply findSlot_stored; assumption |].
  unfold operator_index, count in *.
  destruct (findSlot m k) as [q|] eqn:Ef.
  - injection Hidx as <- <-. split; [reflexivity | discriminate].
  - split; [discriminate |]. intros _.
    destruct (insertOrUpdate m k V_default) as [[] m1|e1 m1] eqn:Ei;
      [|discriminate].
    destruct (findSlot m1 k) as [q|] eqn:Ef1; [|discriminate].
    injection Hidx as <- <-.
    destruct (insertOrUpdate_Ok_holds key_eqb_eq m k V_default m1 Hwf Ei)
      as (q' & Hq' & Hval).
    assert (q' = q) as -> by congruence.
    split; [exact Hval |].
    rewrite (insertOrUpdate_Ok_size m k V_default m1 Hwf Ei).
    unfold count. rewrite Ef. reflexivity.
Qed.


(** *** The first insertion *)

(** A region without entries passes the admission test, whatever its
    capacity. *)
Lemma empty_region_eligible (c : Z) :
  0 < c < size_t_modulus -> eligible (newSubarray c) = true.
Proof.
  intros Hc. unfold eligible, newSubarray, wrap. cbn [size capacity].
  apply Z.ltb_lt. change (0 * 10) with 0. rewrite Z.mod_0_l by discriminate.
  assert (Hm : 0 <= (c * 9) mod size_t_modulus < size_t_modulus)
    by (apply Z.mod_pos_bound; reflexivity).
  destruct (Z.eq_dec ((c * 9) mod size_t_modulus) 0) as [E|]; [|lia].
  exfalso. apply Z.mod_divide in E; [|discriminate].
  rewrite Z.mul_comm in E. apply Z.gauss in E; [|reflexivity].
  apply Z.divide_pos_le in E; lia.
Qed.

Lemma ctor_first_region (n : Z) (m : ElasticHashMap) :
  ElasticHashMap_ctor n = Some m ->
  exists caps,
    subarrays m = newSubarray (Z.max n 8 / 2) :: (newSubarray <$> caps).
Proof.
  unfold ElasticHashMap_ctor. rewrite region_sizes_effective.
  destruct (allocate _ (Z.max n 8)) as [l|] eqn:El; [|discriminate].
  cbn. intros [= <-].
  destruct (allocate_shape _ (Z.max n 8) l ltac:(lia) El)
    as (front & last & -> & _).
  exists (front ++ [last]). reflexivity.
Qed.

Lemma total_size_new (caps : list Z) :
  sumZ (size <$> (newSubarray <$> caps)) = 0.
Proof.
  unfold sumZ. induction caps as [|c caps IH]; cbn; [reflexivity | exact IH].
Qed.

Lemma probe_index_first (k : K) (c : Z) :
  probe_index (hashOf k) 0 c = hashOf k mod c.
Proof.
  unfold probe_index, hashOf, wrap.
  rewrite Z.add_0_r, Z.mod_mod by discriminate. reflexivity.
Qed.

Lemma budget_positive (c : Z) :
  0 < c -> exists b, Z.to_nat (maxProbesOf c) = S b.
Proof.
  intros Hc. unfold maxProbesOf. exists (Z.to_nat (Z.min 16 c) - 1)%nat. lia.
Qed.

(** An empty first slot of the probe sequence is claimed at once. *)
Lemma doInsert_in_first_probe (sub : Subarray) (k : K) (v : V) :
  0 < capacity sub ->
  occupied (slot_at sub (hashOf k mod capacity sub)) = false ->
  (doInsert_in sub k v).1
    = Some (place sub (hashOf k mod capacity sub) k v).
Proof.
  intros Hc Ho. unfold doInsert_in.
  destruct (budget_positive _ Hc) as [b ->]. cbn [doInsert_probe].
  rewrite probe_index_first, Ho. reflexivity.
Qed.

(** A matching key in the first slot of the probe sequence is found at
    once. *)
Lemma findSlot_in_first_probe (sub : Subarray) (k : K) :
  0 < capacity sub ->
  occupied (slot_at sub (hashOf k mod capacity sub)) = true ->
  key_eqb (key (slot_at sub (hashOf k mod capacity sub))) k = true ->
  (findSlot_in sub k).1 = Some (hashOf k mod capacity sub).
Proof.
  intros Hc Ho Hk. unfold findSlot_in.
  destruct (budget_positive _ Hc) as [b ->]. cbn [findSlot_probe].
  rewrite probe_index_first, Ho, Hk. reflexivity.
Qed.

(** X15. The first insertion into a freshly constructed map always succeeds: the
    key goes into the first region at index [hash % capacity], where a
    lookup then finds it with the given value, and the map holds one
    entry. *)
Theorem first_insert_succeeds (n : Z) (m0 : ElasticHashMap) (k : K) (v : V) :
  n < size_t_modulus ->
  ElasticHashMap_ctor n = Some m0 ->
  exists m1,
    insertOrUpdate m0 k v = Ok tt m1 /\
    findSlot m1 k = Some (O, hashOf k mod (Z.max n 8 / 2)) /\
    lookup_value m1 k = Some v /\
    total_size m1 = 1.
Proof.
  intros Hn Hm0. destruct (ctor_first_region n m0 Hm0) as (caps & Hs).
  pose proof (ctor_findSlot_None n m0 k Hm0) as Hnone.
  set (c := Z.max n 8 / 2) in *.
  assert (Hc : 4 <= c < size_t_modulus).
  { subst c. unfold size_t_modulus in *.
    pose proof (Z.div_mod (Z.max n 8) 2 ltac:(lia)).
    pose proof (Z.mod_pos_bound (Z.max n 8) 2 ltac:(lia)). lia. }
  set (sub0 := newSubarray c) in *.
  assert (Hcap : capacity sub0 = c) by reflexivity.
  assert (Hwf0 : wf_sub sub0) by (apply newSubarray_wf; lia).
  set (idx := hashOf k mod capacity sub0).
  assert (Hr : 0 <= idx < capacity sub0)
    by (apply Z.mod_pos_bound; rewrite Hcap; lia).
  assert (Hplaced : slot_at (place sub0 idx k v) idx = mkSlot true k v)
    by (apply slot_at_place_same; [apply Hwf0 | exact Hr]).
  assert (Hfind : (findSlot_in (place sub0 idx k v) k).1 = Some idx).
  { apply (findSlot_in_first_probe (place sub0 idx k v) k).
    - cbn [capacity place]. lia.
    - cbn [capacity place]. fold idx. rewrite Hplaced. reflexivity.
    - cbn [capacity place]. fold idx. rewrite Hplaced. cbn.
      apply (key_eqb_refl key_eqb_eq). }
  assert (Hfs : findSlot (mkMap (place sub0 idx k v :: (newSubarray <$> caps))) k
                = Some (O, idx)).
  { unfold findSlot. cbn [subarrays findSlot_subs]. rewrite Hfind.
    reflexivity. }
  exists (mkMap (place sub0 idx k v :: (newSubarray <$> caps))).
  split; [|split; [|split]].
  - unfold insertOrUpdate. rewrite tryUpdate_spec, Hnone. cbn [fst snd].
    unfold doInsert. rewrite Hs. cbn [doInsert_subs].
    assert (He : eligible sub0 = true)
      by (apply empty_region_eligible; lia).
    rewrite He.
    rewrite (doInsert_in_first_probe sub0 k v);
      [reflexivity | rewrite Hcap; lia | apply newSubarray_empty].
  - exact Hfs.
  - unfold lookup_value. rewrite Hfs. cbn [fmap option_fmap option_map].
    unfold slot_of. cbn [fst snd subarrays lookup list_lookup].
    rewrite Hplaced. reflexivity.
  - unfold total_size. cbn [subarrays fmap list_fmap].
    pose proof (total_size_new caps) as H0. unfold sumZ in *.
    cbn [foldr]. fold (@fmap list _ _ _ size (newSubarray <$> caps)).
    rewrite H0. reflexivity.
Qed.


(** *** Lookups are exact *)

(** X16. In every state reached from a constructed map, [count] is true exactly
    for the keys that some slot holds: stopping at the first empty slot and
    after at most 16 probes never hides a stored key. *)
Theorem count_iff_stored (n : Z) (m0 : ElasticHashMap) (ops : list Op)
    (k : K) :
  n < size_t_modulus ->
  ElasticHashMap_ctor n = Some m0 ->
  (count (run_catch ops m0) k = true <->
   exists i idx, stored (run_catch ops m0) i idx k).
Proof.
  intros Hn Hm0.
  pose proof (run_catch_good key_eqb_eq ops m0 (ctor_good n m0 Hn Hm0))
    as [Hwf Hf].
  unfold count. split.
  - destruct (findSlot (run_catch ops m0) k) as [p|] eqn:Ef; [|discriminate].
    intros _. exists p.1, p.2. apply findSlot_stored; assumption.
  - intros (i & idx & Hst). rewrite (Hf i idx k Hst). reflexivity.
Qed.

(** *** Where a new key lands *)

(** After a failed lookup of [k], what [doInsert] claims in a region is the
    first empty slot of the probe sequence. *)
Lemma doInsert_probe_first_empty (sub : Subarray) (k : K) (v : V) (h : Z) :
  Z.of_nat (length (slots sub)) = capacity sub -> 0 < capacity sub ->
  forall n p sub',
    (findSlot_probe sub k h n p).1 = None ->
    (doInsert_probe sub k v h n p).1 = Some sub' ->
    exists q,
      p <= q < p + Z.of_nat n /\
      occupied (slot_at sub (probe_index h q (capacity sub))) = false /\
      (forall q', p <= q' < q ->
         occupied (slot_at sub (probe_index h q' (capacity sub))) = true) /\
      sub' = place sub (probe_index h q (capacity sub)) k v /\
      (findSlot_probe sub' k h n p).1
        = Some (probe_index h q (capacity sub)).
Proof.
  intros Hlen Hcap. induction n as [|n IH]; intros p sub';
    cbn [findSlot_probe doInsert_probe]; [discriminate |].
  pose proof (probe_index_range h p _ Hcap) as Hr0.
  destruct (occupied (slot_at sub (probe_index h p (capacity sub)))) eqn:Eo;
    cbn [negb andb].
  - destruct (key_eqb _ k) eqn:Ek; cbn; [discriminate |].
    intros Hf Hd.
    destruct (IH _ _ Hf Hd) as (q & Hq & Ho & Hbefore & -> & Hfind).
    exists q. split; [lia |]. split; [exact Ho |]. split.
    + intros q' Hq'. destruct (Z.eq_dec q' p) as [->|Hne]; [exact Eo |].
      apply Hbefore. lia.
    + split; [reflexivity |]. cbn [findSlot_probe].
      change (capacity (place sub ?i k v)) with (capacity sub).
      pose proof (probe_index_range h q _ Hcap) as Hrq.
      rewrite slot_at_place_other by (try lia; congruence).
      rewrite Eo, Ek. cbn. exact Hfind.
  - intros _ [= <-]. exists p. split; [lia |]. split; [exact Eo |].
    split; [intros q' Hq'; lia |]. split; [reflexivity |].
    cbn [findSlot_probe].
    change (capacity (place sub ?i k v)) with (capacity sub).
    rewrite slot_at_place_same by assumption. cbn.
    rewrite (key_eqb_refl key_eqb_eq). reflexivity.
Qed.

(** X17. The fallback policy: a new key is placed in the first region that does
    not reject it (every earlier region fails the admission test or has its
    probe sequence blocked), at the first empty slot of that region's probe
    sequence; this is where [findSlot] finds it afterwards. *)
Theorem new_key_goes_to_first_accepting_region (m : ElasticHashMap) (k : K)
    (v : V) (m' : ElasticHashMap) :
  wf_map m -> count m k = false -> insertOrUpdate m k v = Ok tt m' ->
  exists i sub q,
    subarrays m !! i = Some sub /\
    Forall (fun s => rejects s k = true) (take i (subarrays m)) /\
    rejects sub k = false /\
    0 <= q < Z.min 16 (capacity sub) /\
    (forall q', 0 <= q' < q ->
       occupied (slot_at sub (probe_index (hashOf k) q' (capacity sub)))
         = true) /\
    occupied (slot_at sub (probe_index (hashOf k) q (capacity sub))) = false /\
    findSlot m' k = Some (i, probe_index (hashOf k) q (capacity sub)).
Proof.
  intros Hwf Hc. unfold insertOrUpdate, count in *.
  rewrite tryUpdate_spec.
  destruct (findSlot m k) as [p|] eqn:Ef; [discriminate |]. cbn [fst snd].
  unfold doInsert.
  destruct (doInsert_subs_spec (subarrays m) k v)
    as [[Hp _]|(Hp & i & sub & sub' & Hi & He & Hd & Ha & Hall)];
    rewrite Hp; [discriminate |].
  intros [= <-]. unfold findSlot in Ef. apply findSlot_subs_None in Ef.
  pose proof (Forall_lookup_1 _ _ _ _ Hwf Hi) as [Hlen _ Hcap].
  pose proof (Forall_lookup_1 _ _ _ _ Ef Hi) as Hscan. cbn in Hscan.
  destruct (doInsert_probe_first_empty sub k v _ Hlen (proj1 Hcap) _ _ _
              Hscan Hd) as (q & Hq & Ho & Hbefore & -> & Hfind).
  exists i, sub, q. split; [exact Hi |]. split.
  { eapply Forall_impl; [| exact Hall]. cbn. intros s Hs. unfold rejects.
    destruct (eligible s); cbn; [|reflexivity].
    apply (doInsert_in_None s k v), Hs. reflexivity. }
  split.
  { unfold rejects. rewrite He. cbn.
    destruct (probe_blocked sub k) eqn:Eb; [|reflexivity].
    apply (doInsert_in_None sub k v) in Eb. congruence. }
  split; [unfold maxProbesOf in Hq; lia |].
  split; [exact Hbefore |]. split; [exact Ho |].
  apply (updates_findSlot_hit m _ i sub
           (place sub (probe_index (hashOf k) q (capacity sub)) k v));
    [split; assumption | apply Forall_take, Ef | exact Hfind].
Qed.

End LawfulClients.

End Container.

(** * A concrete instance

    Keys and values are [size_t] numbers, [operator==] is numeric equality
    and the hasher is the identity (as [std::hash<size_t>] commonly is). *)

Definition demo_hash (k : Z) : Z := k.

Definition demo_ctor (n : Z) : option (ElasticHashMap Z Z) :=
  ElasticHashMap_ctor Z Z 0 0 n.

Definition demo_put (m : ElasticHashMap Z Z) (k v : Z)
    : result (ElasticHashMap Z Z) unit :=
  insertOrUpdate Z Z Z.eqb demo_hash 0 0 m k v.

Definition demo_index (m : ElasticHashMap Z Z) (k : Z)
    : result (ElasticHashMap Z Z) (nat * Z) :=
  operator_index Z Z Z.eqb demo_hash 0 0 m k.

Definition demo_run (ops : list (Op Z Z)) (m : ElasticHashMap Z Z)
    : ElasticHashMap Z Z :=
  run_catch Z Z Z.eqb demo_hash 0 0 ops m.

Definition demo_count (m : ElasticHashMap Z Z) (k : Z) : bool :=
  count Z Z Z.eqb demo_hash 0 0 m k.

Definition demo_lookup (m : ElasticHashMap Z Z) (k : Z) : option Z :=
  lookup_value Z Z Z.eqb demo_hash 0 0 m k.

(** [ElasticHashMap<size_t, size_t> m(8)]: regions of 4, 2 and 2 slots. *)
Definition demo_empty : ElasticHashMap Z Z :=
  mkMap Z Z (newSubarray Z Z 0 0 <$> [4; 2; 2]).

(** Keys 0 to 7, each with ten times its value. *)
Definition demo_fill : list (Op Z Z) :=
  (fun k => OpPut Z Z k (10 * k)) <$> seqZ 0 8.

(** The map after keys 0 to 3 went in: the first region is full. *)
Definition demo_four : ElasticHashMap Z Z := demo_run (take 4 demo_fill) demo_empty.

(** The map after all eight keys went in: every slot is occupied. *)
Definition demo_full : ElasticHashMap Z Z := demo_run demo_fill demo_empty.

(** A key type whose [operator==] is never true (as for a NaN). *)
Definition never_equal (a b : Z) : bool := false.

Ltac wf_by_computation :=
  unfold wf_map; vm_compute;
  repeat (constructor; [split; [reflexivity | reflexivity | split; reflexivity] |]);
  constructor.

(** ** The scenarios of the specification, run on the model *)

Example demo_ctor_8 : demo_ctor 8 = Some demo_empty.
Proof. reflexivity. Qed.

Example demo_ctor_small : demo_ctor 3 = Some demo_empty.
Proof. reflexivity. Qed.

Example demo_capacities_1024 :
  capacities Z Z <$> demo_ctor 1024 = Some [512; 256; 128; 64; 32; 16; 8; 4; 2; 2].
Proof. vm_compute. reflexivity. Qed.

Example demo_four_found :
  forallb (demo_count demo_four) [0; 1; 2; 3] = true /\
  demo_count demo_four 4 = false.
Proof. split; vm_compute; reflexivity. Qed.

Example demo_second_value_wins :
  demo_lookup (demo_run [OpPut Z Z 5 1; OpPut Z Z 5 2] demo_empty) 5 = Some 2.
Proof. vm_compute. reflexivity. Qed.

Example demo_full_sizes :
  size Z Z <$> subarrays Z Z demo_full = [4; 2; 2] /\
  forallb (demo_count demo_full) (seqZ 0 8) = true.
Proof. split; vm_compute; reflexivity. Qed.

Example demo_index_default :
  match demo_index demo_empty 6 with
  | Ok p m => (value Z Z (slot_of Z Z 0 0 m p) =? 0) && demo_count m 6
  | Throw _ _ => false
  end = true.
Proof. vm_compute. reflexivity. Qed.

(** With keys that never compare equal the second lookup of [operator[]]
    fails, and the exception is the one of [operator[]] itself. *)
Example demo_invariant_violation :
  operator_index Z Z never_equal demo_hash 0 0 demo_empty 5
    = Throw InvariantViolation
            (state_after
               (insertOrUpdate Z Z never_equal demo_hash 0 0 demo_empty 5 0)) /\
  size Z Z <$> subarrays Z Z
    (state_after (insertOrUpdate Z Z never_equal demo_hash 0 0 demo_empty 5 0))
    = [1; 0; 0].
Proof. split; vm_compute; reflexivity. Qed.

(** The sum [hashVal + probe] is a [size_t] sum: for a hash within 15 of
    the largest [size_t] it wraps, and the indices go on from
    [0 % capacity]. *)
Example demo_probe_wrap :
  probe_sequence (2 ^ 64 - 1) 3 = [0; 0; 1] /\
  (2 ^ 64 - 1 + 1) mod 3 = 1.
Proof. split; vm_compute; reflexivity. Qed.

(** ** Instances of the theorems *)

Lemma no_loss_after_insert_witness :
  demo_put (demo_run [] demo_empty) 5 7
    = Ok tt (state_after (demo_put demo_empty 5 7)) /\
  demo_count
    (demo_run [OpPut Z Z 6 1; OpIndexAssign Z Z 5 9; OpIndex Z Z 2]
              (state_after (demo_put demo_empty 5 7))) 5 = true /\
  demo_lookup
    (demo_run [OpPut Z Z 6 1; OpIndexAssign Z Z 5 9; OpIndex Z Z 2]
              (state_after (demo_put demo_empty 5 7))) 5 = Some 9.
Proof.
  assert (H : demo_put (demo_run [] demo_empty) 5 7
              = Ok tt (state_after (demo_put demo_empty 5 7)))
    by (vm_compute; reflexivity).
  split; [exact H |].
  destruct (no_loss_after_insert Z Z Z.eqb demo_hash 0 0 Z.eqb_eq 8
              demo_empty _ [] [OpPut Z Z 6 1; OpIndexAssign Z Z 5 9; OpIndex Z Z 2]
              5 7 eq_refl eq_refl H) as (H1 & H2 & _).
  split; [exact H1 | exact H2].
Defined.

Lemma put_is_idempotent_witness :
  wf_map Z Z demo_four /\
  demo_put (state_after (demo_put demo_four 4 40)) 4 40
    = demo_put demo_four 4 40.
Proof.
  assert (Hwf : wf_map Z Z demo_four) by wf_by_computation.
  split; [exact Hwf |].
  exact (proj1 (put_is_idempotent Z Z Z.eqb demo_hash 0 0 Z.eqb_eq
                  demo_four 4 40 Hwf)).
Defined.

Lemma insertion_respects_fill_threshold_witness :
  wf_map Z Z demo_four /\
  doInsert_probed Z Z Z.eqb demo_hash 0 0 demo_four 4 40 = [(1%nat, 0)] /\
  exists sub, subarrays Z Z demo_four !! 1%nat = Some sub /\
              eligible Z Z sub = true /\
              (capacity Z Z sub * 10 < size_t_modulus ->
               below_threshold Z Z sub).
Proof.
  assert (Hwf : wf_map Z Z demo_four) by wf_by_computation.
  split; [exact Hwf |]. split; [vm_compute; reflexivity |].
  apply (proj1 (insertion_respects_fill_threshold Z Z Z.eqb demo_hash 0 0
                  demo_four 4 40 Hwf) 1%nat 0).
  vm_compute. apply list_elem_of_here.
Defined.

Lemma failed_insert_witness :
  demo_put demo_full 8 80 = Throw CapacityExhausted demo_full /\
  demo_full = demo_full /\ CapacityExhausted = CapacityExhausted.
Proof.
  assert (H : demo_put demo_full 8 80 = Throw CapacityExhausted demo_full)
    by (vm_compute; reflexivity).
  split; [exact H |].
  exact (failed_insert_leaves_map_unchanged Z Z Z.eqb demo_hash 0 0
           demo_full 8 80 CapacityExhausted demo_full (or_intror H)).
Defined.


Lemma region_size_invariant_witness :
  8 < size_t_modulus /\ demo_ctor 8 = Some demo_empty /\
  Forall (size_accurate Z Z) (subarrays Z Z demo_full) /\
  capacities Z Z
    (state_after (exec Z Z Z.eqb demo_hash 0 0 (OpIndexAssign Z Z 9 1) demo_full))
    = [4; 2; 2].
Proof.
  split; [reflexivity |]. split; [reflexivity |].
  destruct (region_size_invariant Z Z Z.eqb demo_hash 0 0 8 demo_empty
              demo_fill (OpIndexAssign Z Z 9 1) eq_refl eq_refl)
    as (H1 & _ & _ & H4).
  split; [exact H1 | exact H4].
Defined.

Lemma key_stored_at_most_once_witness :
  stored Z Z 0 0 demo_full 1 1 5 /\ (1%nat, 1) = (1%nat, 1).
Proof.
  assert (H : stored Z Z 0 0 demo_full 1 1 5).
  { eexists. split; [vm_compute; reflexivity |].
    split; [split; vm_compute; [discriminate | reflexivity] |].
    split; vm_compute; reflexivity. }
  split; [exact H |].
  exact (key_stored_at_most_once Z Z Z.eqb demo_hash 0 0 Z.eqb_eq 8
           demo_empty demo_fill 5 1 1 1 1 eq_refl eq_refl H H).
Defined.

(** ** Instances of the further theorems *)

(** [ElasticHashMap<size_t, size_t> m(9)]: regions of 4, 2 and 3 slots. *)
Definition demo_nine : ElasticHashMap Z Z :=
  mkMap Z Z (newSubarray Z Z 0 0 <$> [4; 2; 3]).

(** The first region of [demo_four]: four slots, all occupied. *)
Definition demo_first_region : Subarray Z Z :=
  default (newSubarray Z Z 0 0 0) (subarrays Z Z demo_four !! O).

(** The map after key 4 went into [demo_four]. *)
Definition demo_five : ElasticHashMap Z Z :=
  state_after (demo_put demo_four 4 40).

Example demo_fallback :
  findSlot Z Z Z.eqb demo_hash 0 0 demo_five 4 = Some (1%nat, 0) /\
  rejects Z Z Z.eqb demo_hash 0 0 demo_first_region 4 = true.
Proof. split; vm_compute; reflexivity. Qed.

Lemma ctor_map_is_empty_witness :
  demo_ctor 8 = Some demo_empty /\ demo_count demo_empty 5 = false.
Proof.
  split; [reflexivity |].
  exact (proj1 (ctor_map_is_empty Z Z Z.eqb demo_hash 0 0 8 demo_empty 5
                  eq_refl)).
Defined.

Lemma ctor_layout_witness :
  demo_ctor 9 = Some demo_nine /\
  exists front last,
    capacities Z Z demo_nine = (Z.max 9 8 / 2 :: front) ++ [last] /\
    sorted_desc (Z.max 9 8 / 2 :: front) = true /\
    Forall (fun c => 2 <= c <= Z.max 9 8 / 2) (Z.max 9 8 / 2 :: front) /\
    2 <= last <= 3.
Proof.
  split; [reflexivity |].
  exact (ctor_layout Z Z 0 0 9 demo_nine eq_refl).
Defined.

Lemma ctor_region_count_witness :
  demo_ctor 9 = Some demo_nine /\
  (3 <= length (subarrays Z Z demo_nine))%nat.
Proof.
  split; [reflexivity |].
  exact (proj1 (ctor_region_count Z Z 0 0 9 demo_nine eq_refl)).
Defined.

Lemma entries_never_move_witness :
  wf_map Z Z demo_four /\ stored Z Z 0 0 demo_four 0 1 1 /\
  stored Z Z 0 0 (demo_run (drop 4 demo_fill) demo_four) 0 1 1.
Proof.
  assert (Hwf : wf_map Z Z demo_four) by wf_by_computation.
  assert (H : stored Z Z 0 0 demo_four 0 1 1).
  { eexists. split; [vm_compute; reflexivity |].
    split; [split; vm_compute; [discriminate | reflexivity] |].
    split; vm_compute; reflexivity. }
  split; [exact Hwf |]. split; [exact H |].
  exact (entries_never_move Z Z Z.eqb demo_hash 0 0 demo_four
           (drop 4 demo_fill) 0 1 1 Hwf H).
Defined.

Lemma probes_stay_in_bounds_witness :
  wf_sub Z Z demo_first_region /\
  (findSlot_in Z Z Z.eqb demo_hash 0 0 demo_first_region 6).2 = [2; 3; 0; 1] /\
  (Z.to_nat 3 < length (slots Z Z demo_first_region))%nat.
Proof.
  assert (Hwf : wf_sub Z Z demo_first_region)
    by (vm_compute; split; [reflexivity | reflexivity | split; reflexivity]).
  split; [exact Hwf |]. split; [vm_compute; reflexivity |].
  refine (proj1 (proj2 (probes_stay_in_bounds Z Z Z.eqb demo_hash 0 0
                          demo_first_region 6 60 3 Hwf _))).
  vm_compute. apply list_elem_of_further, list_elem_of_here.
Defined.

Lemma entries_bounded_by_capacity_witness :
  8 < size_t_modulus /\ demo_ctor 8 = Some demo_empty /\
  0 <= total_size Z Z demo_full <= Z.max 8 8.
Proof.
  split; [reflexivity |]. split; [reflexivity |].
  exact (entries_bounded_by_capacity Z Z Z.eqb demo_hash 0 0 8 demo_empty
           demo_fill eq_refl eq_refl).
Defined.

Lemma saturated_region_stays_saturated_witness :
  wf_map Z Z demo_four /\
  subarrays Z Z demo_four !! O = Some demo_first_region /\
  eligible Z Z demo_first_region = false /\
  exists sub',
    subarrays Z Z (demo_run (drop 4 demo_fill) demo_four) !! O = Some sub' /\
    capacity Z Z sub' = capacity Z Z demo_first_region /\
    eligible Z Z sub' = false.
Proof.
  assert (Hwf : wf_map Z Z demo_four) by wf_by_computation.
  assert (Hi : subarrays Z Z demo_four !! O = Some demo_first_region)
    by (vm_compute; reflexivity).
  assert (He : eligible Z Z demo_first_region = false)
    by (vm_compute; reflexivity).
  split; [exact Hwf |]. split; [exact Hi |]. split; [exact He |].
  exact (saturated_region_stays_saturated Z Z Z.eqb demo_hash 0 0 demo_four
           (drop 4 demo_fill) O demo_first_region Hwf Hi eq_refl He).
Defined.

Lemma slot_pointer_is_stable_witness :
  findSlot Z Z Z.eqb demo_hash 0 0 demo_four 1 = Some (O, 1) /\
  findSlot Z Z Z.eqb demo_hash 0 0 (demo_run (drop 4 demo_fill) demo_four) 1
    = Some (O, 1).
Proof.
  assert (H : findSlot Z Z Z.eqb demo_hash 0 0
                (run_catch Z Z Z.eqb demo_hash 0 0 (take 4 demo_fill) demo_empty)
                1 = Some (O, 1))
    by (vm_compute; reflexivity).
  split; [exact H |].
  exact (proj1 (slot_pointer_is_stable Z Z Z.eqb demo_hash 0 0 Z.eqb_eq 8
                  demo_empty (take 4 demo_fill) (drop 4 demo_fill) 1 (O, 1)
                  eq_refl eq_refl H)).
Defined.

Lemma other_keys_unaffected_witness :
  1 <> op_key Z Z (OpPut Z Z 4 40) /\
  demo_lookup
    (state_after (exec Z Z Z.eqb demo_hash 0 0 (OpPut Z Z 4 40) demo_four)) 1
    = demo_lookup demo_four 1.
Proof.
  assert (Hne : 1 <> op_key Z Z (OpPut Z Z 4 40)) by (cbn; discriminate).
  split; [exact Hne |].
  exact (proj2 (other_keys_unaffected Z Z Z.eqb demo_hash 0 0 Z.eqb_eq 8
                  demo_empty (take 4 demo_fill) (OpPut Z Z 4 40) 1
                  eq_refl eq_refl Hne)).
Defined.

Lemma put_size_accounting_witness :
  wf_map Z Z demo_four /\ demo_put demo_four 4 40 = Ok tt demo_five /\
  total_size Z Z demo_five = total_size Z Z demo_four + 1.
Proof.
  assert (Hwf : wf_map Z Z demo_four) by wf_by_computation.
  assert (H : demo_put demo_four 4 40 = Ok tt demo_five)
    by (vm_compute; reflexivity).
  split; [exact Hwf |]. split; [exact H |].
  exact (proj1 (put_size_accounting Z Z Z.eqb demo_hash 0 0 Z.eqb_eq
                  demo_four 4 40 demo_five Hwf H)).
Defined.

Lemma operator_index_only_fails_for_capacity_witness :
  wf_map Z Z demo_full /\
  demo_index demo_full 8 = Throw CapacityExhausted demo_full /\
  demo_count demo_full 8 = false.
Proof.
  assert (Hwf : wf_map Z Z demo_full) by wf_by_computation.
  assert (H : demo_index demo_full 8 = Throw CapacityExhausted demo_full)
    by (vm_compute; reflexivity).
  split; [exact Hwf |]. split; [exact H |].
  exact (proj2 (proj2 (operator_index_only_fails_for_capacity Z Z Z.eqb
                         demo_hash 0 0 Z.eqb_eq demo_full 8 CapacityExhausted
                         demo_full Hwf H))).
Defined.

Lemma operator_index_returns_entry_witness :
  wf_map Z Z demo_four /\
  demo_index demo_four 6 = Ok (1%nat, 0) (state_after (demo_index demo_four 6)) /\
  findSlot Z Z Z.eqb demo_hash 0 0 (state_after (demo_index demo_four 6)) 6
    = Some (1%nat, 0).
Proof.
  assert (Hwf : wf_map Z Z demo_four) by wf_by_computation.
  assert (H : demo_index demo_four 6
              = Ok (1%nat, 0) (state_after (demo_index demo_four 6)))
    by (vm_compute; reflexivity).
  split; [exact Hwf |]. split; [exact H |].
  exact (proj1 (operator_index_returns_entry Z Z Z.eqb demo_hash 0 0 Z.eqb_eq
                  demo_four 6 (1%nat, 0) _ Hwf H)).
Defined.

Lemma first_insert_succeeds_witness :
  8 < size_t_modulus /\ demo_ctor 8 = Some demo_empty /\
  exists m1,
    demo_put demo_empty 5 7 = Ok tt m1 /\
    findSlot Z Z Z.eqb demo_hash 0 0 m1 5
      = Some (O, hashOf Z demo_hash 5 mod (Z.max 8 8 / 2)) /\
    demo_lookup m1 5 = Some 7 /\ total_size Z Z m1 = 1.
Proof.
  split; [reflexivity |]. split; [reflexivity |].
  exact (first_insert_succeeds Z Z Z.eqb demo_hash 0 0 Z.eqb_eq 8 demo_empty
           5 7 eq_refl eq_refl).
Defined.

Lemma count_iff_stored_witness :
  demo_ctor 8 = Some demo_empty /\
  (demo_count demo_full 5 = true <->
   exists i idx, stored Z Z 0 0 demo_full i idx 5).
Proof.
  split; [reflexivity |].
  exact (count_iff_stored Z Z Z.eqb demo_hash 0 0 Z.eqb_eq 8 demo_empty
           demo_fill 5 eq_refl eq_refl).
Defined.

Lemma new_key_goes_to_first_accepting_region_witness :
  wf_map Z Z demo_four /\ demo_count demo_four 4 = false /\
  demo_put demo_four 4 40 = Ok tt demo_five /\
  exists i sub q,
    subarrays Z Z demo_four !! i = Some sub /\
    Forall (fun s => rejects Z Z Z.eqb demo_hash 0 0 s 4 = true)
           (take i (subarrays Z Z demo_four)) /\
    rejects Z Z Z.eqb demo_hash 0 0 sub 4 = false /\
    0 <= q < Z.min 16 (capacity Z Z sub) /\
    (forall q', 0 <= q' < q ->
       occupied Z Z
         (slot_at Z Z 0 0 sub
            (probe_index (hashOf Z demo_hash 4) q' (capacity Z Z sub))) = true) /\
    occupied Z Z
      (slot_at Z Z 0 0 sub
         (probe_index (hashOf Z demo_hash 4) q (capacity Z Z sub))) = false /\
    findSlot Z Z Z.eqb demo_hash 0 0 demo_five 4
      = Some (i, probe_index (hashOf Z demo_hash 4) q (capacity Z Z sub)).
Proof.
  assert (Hwf : wf_map Z Z demo_four) by wf_by_computation.
  assert (Hc : demo_count demo_four 4 = false) by (vm_compute; reflexivity).
  assert (H : demo_put demo_four 4 40 = Ok tt demo_five)
    by (vm_compute; reflexivity).
  split; [exact Hwf |]. split; [exact Hc |]. split; [exact H |].
  exact (new_key_goes_to_first_accepting_region Z Z Z.eqb demo_hash 0 0
           Z.eqb_eq demo_four 4 40 demo_five Hwf Hc H).
Defined.

(** ** The probe sequence at the largest hash *)

(** The map built for 9 entries after keys 0 to 8 went in: every slot of
    its three regions (4, 2 and 3 slots) is occupied. *)
Definition demo_nine_full : ElasticHashMap Z Z :=
  demo_run ((fun k => OpPut Z Z k (10 * k)) <$> seqZ 0 9) demo_nine.

(** Its last region: three slots, holding keys 6, 7 and 8. *)
Definition demo_last_region : Subarray Z Z :=
  default (newSubarray Z Z 0 0 0) (subarrays Z Z demo_nine_full !! 2%nat).


Example demo_last_region_shape :
  capacity Z Z demo_last_region = 3 /\ size Z Z demo_last_region = 3 /\
  key Z Z <$> slots Z Z demo_last_region = [6; 7; 8].
Proof. repeat split; vm_compute; reflexivity. Qed.

